(** * Bezier playground: De Casteljau evaluation, construction levels,
      control-point layout and dragging (src/src/App.tsx)

    The component keeps four pieces of state ([t], [order], [points],
    [draggingIndex]) and derives two values from them: the sampled curve
    ([curvePoints]) and the construction pyramid ([intermediatePoints]).

    JavaScript numbers are IEEE 754 binary64 values; they are embedded as
    Rocq's primitive floats, so that every definition below runs on concrete
    inputs and rounds as the program does. *)

From Stdlib Require Import Floats.
From Stdlib Require Import ZArith List Bool Arith Lia Ascii String.
From Stdlib Require Uint63.
From Equations Require Import Equations.
Import ListNotations.

(** ** Numbers *)

Module JS.

Definition number := float.

Local Open Scope float_scope.

Definition is_pos_zero (f : number) : bool := is_zero f && negb (get_sign f).
Definition is_neg_zero (f : number) : bool := is_zero f && get_sign f.

(** [Math.max(value1, value2)] (ECMAScript 21.3.2.24): NaN if an argument is
    NaN; otherwise the arguments are folded from [-Infinity], a [+0]
    replacing a [-0] and a strictly greater number replacing the highest. *)
Definition max_step (highest value : number) : number :=
  if is_pos_zero value && is_neg_zero highest then value
  else if highest <? value then value
  else highest.

Definition Math_max (value1 value2 : number) : number :=
  if is_nan value1 || is_nan value2 then nan
  else max_step (max_step neg_infinity value1) value2.

(** [Math.min(value1, value2)] (ECMAScript 21.3.2.25), the mirror image. *)
Definition min_step (lowest value : number) : number :=
  if is_neg_zero value && is_pos_zero lowest then value
  else if value <? lowest then value
  else lowest.

Definition Math_min (value1 value2 : number) : number :=
  if is_nan value1 || is_nan value2 then nan
  else min_step (min_step infinity value1) value2.

(** [Math.PI], the binary64 value nearest to pi. *)
Definition Math_PI : number := 0x1.921fb54442d18p+1.

(** An array index or length as a number. *)
Definition of_nat (n : nat) : number := of_uint63 (Uint63.of_Z (Z.of_nat n)).

(** [ToIntegerOrInfinity] followed by the clamp of [ToLength]
    (ECMAScript 7.1.5, 7.1.20): NaN and everything below 1 give 0, a
    fraction is truncated, and the result is capped at 2^53 - 1. *)
Definition truncate (f : number) : Z :=
  match Prim2SF f with
  | S754_finite s m e =>
      let magnitude :=
        if (0 <=? e)%Z then Z.shiftl (Zpos m) e else Z.shiftr (Zpos m) (- e) in
      if s then (- magnitude)%Z else magnitude
  | S754_infinity s => if s then (- 2 ^ 53)%Z else (2 ^ 53)%Z
  | S754_zero _ => 0%Z
  | S754_nan => 0%Z
  end.

Definition ToLength (f : number) : nat :=
  Z.to_nat (Z.min (Z.max 0 (truncate f)) (2 ^ 53 - 1)).

(** [Array.from({ length }, (_, i) => f(i))]. *)
Definition Array_from {A : Type} (length : number) (f : nat -> A) : list A :=
  map f (seq 0 (ToLength length)).

(** [Object.is] on numbers: NaN is itself, and the two zeros differ. *)
Definition Object_is (a b : number) : bool := PrimFloat.Leibniz.eqb a b.

End JS.

Import JS.

(** ** Data model *)

Record Point : Type := mkPoint { x : number; y : number }.

Local Open Scope float_scope.

(** ** Geometry: De Casteljau reduction *)

(** The [for] loop shared by [calculateBezierPoint] and [intermediatePoints]:
    one interpolated point per adjacent pair of [controlPoints]. *)
Fixpoint newPoints (t : number) (controlPoints : list Point) : list Point :=
  match controlPoints with
  | p :: ((q :: _) as rest) =>
      {| x := (1 - t) * x p + t * x q;
         y := (1 - t) * y p + t * y q |} :: newPoints t rest
  | _ => []
  end.

(** [calculateBezierPoint].  The function calls itself on a list one point
    shorter until exactly one point is left; [depth] bounds the number of
    nested self-calls the call stack affords, and [None] is the overflow of
    that stack (a RangeError in the engine). *)
Fixpoint calculateBezierPoint (depth : nat) (t : number) (controlPoints : list Point)
  : option Point :=
  if (List.length controlPoints =? 1)%nat then nth_error controlPoints 0
  else
    match depth with
    | O => None
    | S depth' => calculateBezierPoint depth' t (newPoints t controlPoints)
    end.

(** The number of self-calls [calculateBezierPoint] makes before it returns,
    counted along the same recursion. *)
Fixpoint recursiveCalls (depth : nat) (t : number) (controlPoints : list Point)
  : option nat :=
  if (List.length controlPoints =? 1)%nat then Some O
  else
    match depth with
    | O => None
    | S depth' => option_map S (recursiveCalls depth' t (newPoints t controlPoints))
    end.

Definition inspect {A : Type} (a : A) : { b : A | a = b } := exist _ a eq_refl.

(** The [while (currentPoints.length > 1)] loop of [intermediatePoints]:
    [allPoints] collects every level, the newest last. *)
Equations? intermediateLoop (t : number) (currentPoints : list Point)
  (allPoints : list (list Point)) : list (list Point)
  by wf (List.length currentPoints) lt :=
  intermediateLoop t currentPoints allPoints
    with inspect (1 <? List.length currentPoints)%nat => {
    | exist _ true _ =>
        intermediateLoop t (newPoints t currentPoints)
          (allPoints ++ [newPoints t currentPoints]);
    | exist _ false _ => allPoints }.
Proof.
  apply Nat.ltb_lt in e. clear intermediateLoop.
  assert (Hshorter : forall l : list Point,
             List.length (newPoints t l) = Nat.pred (List.length l))
    by (induction l as [|p [|q rest] IH]; simpl in *; auto).
  rewrite Hshorter. lia.
Qed.

Definition intermediatePoints (t : number) (points : list Point) : list (list Point) :=
  let currentPoints := points in
  intermediateLoop t currentPoints [currentPoints].

(** The level reached after [k] rounds of interpolation. *)
Definition level (k : nat) (t : number) (points : list Point) : list Point :=
  Nat.iter k (newPoints t) points.


(** ** Component state *)

(** [pointsRef] is the identity of the array held in [points]: [setPoints]
    is only ever given a newly built array ([Array.from], [prev.map]), so
    every call installs a reference that was not seen before. *)
Record State : Type := mkState {
  t : number;
  order : number;
  points : list Point;
  pointsRef : nat;
  draggingIndex : option nat
}.

(** [useState(0)], [useState(3)], [useState([])], [useState(null)]. *)
Definition initialState : State :=
  {| t := 0; order := 3; points := []; pointsRef := 0; draggingIndex := None |}.

Definition setT (newT : number) (s : State) : State :=
  {| t := newT; order := order s; points := points s;
     pointsRef := pointsRef s; draggingIndex := draggingIndex s |}.

Definition setOrder (newOrder : number) (s : State) : State :=
  {| t := t s; order := newOrder; points := points s;
     pointsRef := pointsRef s; draggingIndex := draggingIndex s |}.

Definition setPoints (update : list Point -> list Point) (s : State) : State :=
  {| t := t s; order := order s; points := update (points s);
     pointsRef := S (pointsRef s); draggingIndex := draggingIndex s |}.

Definition setDraggingIndex (index : option nat) (s : State) : State :=
  {| t := t s; order := order s; points := points s;
     pointsRef := pointsRef s; draggingIndex := index |}.

(** [prev.map((p, i) => ...)]. *)
Fixpoint mapi_from {A B : Type} (i : nat) (f : A -> nat -> B) (l : list A) : list B :=
  match l with
  | [] => []
  | a :: rest => f a i :: mapi_from (S i) f rest
  end.

Definition Array_map {A B : Type} (f : A -> nat -> B) (l : list A) : list B :=
  mapi_from 0 f l.

(** A callback that may overflow the stack aborts the whole [Array.from]. *)
Fixpoint sequence {A : Type} (l : list (option A)) : option (list A) :=
  match l with
  | [] => Some []
  | None :: _ => None
  | Some a :: rest =>
      match sequence rest with
      | Some rest' => Some (a :: rest')
      | None => None
      end
  end.

(** A stand-in for the engine's [Math.sin], to run the layout on concrete
    orders: the Taylor polynomial of degree 17 around 0. *)
Definition sinSeries (v : number) : number :=
  let v2 := v * v in
  v * (1 - v2 / 6 * (1 - v2 / 20 * (1 - v2 / 42 * (1 - v2 / 72 *
      (1 - v2 / 110 * (1 - v2 / 156 * (1 - v2 / 210 * (1 - v2 / 272)))))))).

(** ** Memoised derived values *)

(** A [useMemo] cell: the dependencies the value was computed for, the value,
    and how many times the factory has run. *)
Record Memo (D A : Type) : Type := mkMemo { deps : D; value : A; runs : nat }.

Arguments mkMemo {D A} _ _ _.
Arguments deps {D A} _.
Arguments value {D A} _.
Arguments runs {D A} _.

(** [useMemo(factory, deps)]: the factory runs on the first render and
    whenever a dependency differs from the one the cell was computed for. *)
Definition useMemo {D A : Type} (same : D -> D -> bool) (factory : unit -> A)
  (newDeps : D) (cell : option (Memo D A)) : Memo D A :=
  match cell with
  | None => {| deps := newDeps; value := factory tt; runs := 1 |}
  | Some m =>
      if same (deps m) newDeps then m
      else {| deps := newDeps; value := factory tt; runs := S (runs m) |}
  end.

(** ** The order field *)

Definition isWhiteSpace (c : ascii) : bool :=
  let n := nat_of_ascii c in
  ((n =? 9) || (n =? 10) || (n =? 11) || (n =? 12) || (n =? 13) || (n =? 32))%nat.

Fixpoint trimStart (s : string) : string :=
  match s with
  | String c rest => if isWhiteSpace c then trimStart rest else s
  | EmptyString => s
  end.

Definition digitValue (c : ascii) : option Z :=
  let n := Z.of_nat (nat_of_ascii c) in
  if ((48 <=? n) && (n <=? 57))%Z then Some (n - 48)%Z
  else if ((97 <=? n) && (n <=? 122))%Z then Some (n - 87)%Z
  else if ((65 <=? n) && (n <=? 90))%Z then Some (n - 55)%Z
  else None.

(** The longest prefix of radix-[R] digits, as a mathematical integer;
    [None] when there is no such digit. *)
Fixpoint parseDigits (R : Z) (s : string) (acc : option Z) : option Z :=
  match s with
  | String c rest =>
      match digitValue c with
      | Some d =>
          if (d <? R)%Z
          then parseDigits R rest
                 (Some (match acc with Some a => a * R + d | None => d end)%Z)
          else acc
      | None => acc
      end
  | EmptyString => acc
  end.

(** The number nearest to an integer (round to nearest, ties to even). *)
Definition Z2number (z : Z) : number :=
  SF2Prim (binary_normalize prec emax z 0 false).

(** [parseInt(inputString)] with no radix (ECMAScript 19.2.5), on strings of
    ASCII characters. *)
Definition parseInt (inputString : string) : number :=
  let trimmed := trimStart inputString in
  let '(negative, unsigned) :=
    match trimmed with
    | String "-"%char rest => (true, rest)
    | String "+"%char rest => (false, rest)
    | _ => (false, trimmed)
    end in
  let '(R, digits) :=
    match unsigned with
    | String "0"%char (String "x"%char rest) => (16%Z, rest)
    | String "0"%char (String "X"%char rest) => (16%Z, rest)
    | _ => (10%Z, unsigned)
    end in
  match parseDigits R digits None with
  | None => nan
  | Some mathInt =>
      if (mathInt =? 0)%Z then (if negative then PrimFloat.neg_zero else PrimFloat.zero)
      else Z2number (if negative then - mathInt else mathInt)%Z
  end.

Section App.

(** [Math.sin] is implementation-approximated (ECMAScript 21.3.2.30). *)
Variable Math_sin : number -> number.

(** The nesting of self-calls the engine's stack affords. *)
Variable depth : nat.

(** *** Control points: the effect on [order] *)

Definition safeOrder (order : number) : number :=
  Math_max 1 (Math_min 100 order).

Definition layoutPoint (safeOrder : number) (i : nat) : Point :=
  {| x := 50 + (of_nat i * 700) / safeOrder;
     y := 200 - Math_sin ((of_nat i * Math_PI) / safeOrder) * 150 |}.

Definition orderLayout (order : number) : list Point :=
  let safeOrder := Math_max 1 (Math_min 100 order) in
  Array_from (safeOrder + 1) (layoutPoint safeOrder).

(** The body of [useEffect(..., [order])]. *)
Definition orderEffect (s : State) : State :=
  let newPoints := orderLayout (order s) in
  if (0 <? List.length newPoints)%nat then setPoints (fun _ => newPoints) s
  else s.

(** *** Sampled curve *)

Definition curvePoints (points : list Point) : option (list Point) :=
  if (List.length points =? 0)%nat then Some []
  else
    sequence
      (Array_from 100 (fun i =>
         let currentT := of_nat i / 99 in
         calculateBezierPoint depth currentT points)).

(** *** Dragging *)

Definition handleMouseDown (index : nat) (s : State) : State :=
  setDraggingIndex (Some index) s.

Definition handleMouseUp (s : State) : State :=
  setDraggingIndex None s.

Definition clampToCanvas (svgPoint : Point) : Point :=
  {| x := Math_max 0 (Math_min 800 (x svgPoint));
     y := Math_max 0 (Math_min 400 (y svgPoint)) |}.

(** [svgPoint] is the pointer position mapped through the inverse of the
    surface's screen transform; it is [None] when [svgRef.current] or
    [getScreenCTM()] is null. *)
Definition handleMouseMove (svgPoint : option Point) (s : State) : State :=
  match draggingIndex s, svgPoint with
  | None, _ => s
  | Some _, None => s
  | Some dragging, Some svgPoint =>
      let moved := clampToCanvas svgPoint in
      setPoints
        (fun prev => Array_map (fun p i => if (i =? dragging)%nat then moved else p) prev)
        s
  end.

(** *** Rendering *)

Record Rendered : Type := mkRendered {
  curveMemo : Memo nat (option (list Point));
  pyramidMemo : Memo (nat * number) (list (list Point))
}.

Definition samePointsAndT (a b : nat * number) : bool :=
  (fst a =? fst b)%nat && Object_is (snd a) (snd b).

(** One render of the component: [curvePoints] depends on [[points]],
    [intermediatePoints] on [[points, t]]. *)
Definition render (s : State) (previous : option Rendered) : Rendered :=
  {| curveMemo :=
       useMemo Nat.eqb (fun _ => curvePoints (points s))
         (pointsRef s) (option_map curveMemo previous);
     pyramidMemo :=
       useMemo samePointsAndT (fun _ => intermediatePoints (t s) (points s))
         (pointsRef s, t s) (option_map pyramidMemo previous) |}.

(** *** Events *)

Inductive Event : Type :=
| SliderChange (newT : number)
| OrderChange (value : string)
| MouseDown (index : nat)
| MouseMove (svgPoint : option Point)
| MouseUp
| MouseLeave.

(** The effect on [order] runs after a render in which [order] differs
    ([Object.is]) from the previous render's. *)
Definition handle (e : Event) (s : State) : State :=
  match e with
  | SliderChange newT => setT newT s
  | OrderChange value =>
      let s' := setOrder (parseInt value) s in
      if Object_is (order s) (order s') then s' else orderEffect s'
  | MouseDown index => handleMouseDown index s
  | MouseMove svgPoint => handleMouseMove svgPoint s
  | MouseUp => handleMouseUp s
  | MouseLeave => handleMouseUp s
  end.

(** The state after the first render and its effect. *)
Definition mounted : State := orderEffect initialState.

(** The states the component goes through. *)
Inductive reachable : State -> Prop :=
| reachable_mounted : reachable mounted
| reachable_handle (s : State) (e : Event) :
    reachable s -> reachable (handle e s).

(** *** The drawing *)

(** A [<circle>] of the construction: the attributes computed from the level
    and the point, and its [onMouseDown]. *)
Record Circle : Type := mkCircle {
  cx : number;
  cy : number;
  r : number;
  fill : string;
  onMouseDown : State -> State;
  cursor : string
}.

(** [() => setIndex === 0 && handleMouseDown(pointIndex)] and its siblings. *)
Definition circle (setIndex : nat) (point : Point) (pointIndex : nat) : Circle :=
  {| cx := x point;
     cy := y point;
     r := if (setIndex =? 0)%nat then 6 else 4;
     fill := if (setIndex =? 0)%nat then "red"%string else "gray"%string;
     onMouseDown :=
       fun s => if (setIndex =? 0)%nat then handleMouseDown pointIndex s else s;
     cursor := if (setIndex =? 0)%nat then "move"%string else "default"%string |}.

(** The [<g>] of one level: the points its [<path>] joins, when
    [pointSet.length > 1] lets it be drawn, and one circle per point. *)
Record Group : Type := mkGroup {
  path : option (list Point);
  circles : list Circle
}.

Definition group (pointSet : list Point) (setIndex : nat) : Group :=
  {| path := if (1 <? List.length pointSet)%nat then Some pointSet else None;
     circles := Array_map (circle setIndex) pointSet |}.

(** [intermediatePoints.map((pointSet, setIndex) => <g> ... </g>)]. *)
Definition groups (intermediatePoints : list (list Point)) : list Group :=
  Array_map group intermediatePoints.

(** *** Sessions *)

(** A state together with what is on screen for it.  The first render sees
    the initial state; the effect on [order] then installs the control points
    and the component renders again; from there each event is followed by a
    render that is handed the cells of the previous one.  (After an entry in
    the order field the component also renders between [setOrder] and the
    effect; [points] and [t] are the same in that render as in the one
    before, so it returns the cells it was given.) *)
Inductive displayed : State -> Rendered -> Prop :=
| displayed_mounted :
    displayed mounted (render mounted (Some (render initialState None)))
| displayed_handle (s : State) (shown : Rendered) (e : Event) :
    displayed s shown ->
    displayed (handle e s) (render (handle e s) (Some shown)).

(** A run of events, the oldest first. *)
Definition handleAll (events : list Event) (s : State) : State :=
  fold_left (fun s e => handle e s) events s.

End App.

(** ** Vocabulary of the properties *)

(** A number that is neither NaN nor an infinity. *)
Definition real (v : spec_float) : bool :=
  match v with S754_zero _ | S754_finite _ _ _ => true | _ => false end.

(** Two numbers that are equal as reals: [a] is finite and [a === b]. *)
Definition sameReal (a b : number) : Prop :=
  is_finite a = true /\ (a =? b) = true.

(** A point of the drawing surface: both coordinates are real numbers. *)
Definition finitePoint (p : Point) : Prop :=
  is_finite (x p) = true /\ is_finite (y p) = true.

(** Equality of points as the program's [===] on each coordinate sees it. *)
Definition samePoint (p q : Point) : Prop :=
  (x p =? x q) = true /\ (y p =? y q) = true.

Definition closePoint (p q : Point) : Prop :=
  sameReal (x p) (x q) /\ sameReal (y p) (y q).

(** [Math.max(lo, Math.min(hi, v))], the clamp the program writes twice. *)
Definition clamp (lo hi v : number) : number := Math_max lo (Math_min hi v).

(** [r] is [v] clamped into [[lo, hi]]. *)
Definition clampedTo (lo hi v r : number) : Prop :=
  (lo <=? r) = true /\ (r <=? hi) = true /\
  ((v <? lo) = true -> r = lo) /\
  ((hi <? v) = true -> r = hi) /\
  ((lo <=? v) = true -> (v <=? hi) = true -> (r =? v) = true).

(** The cells of a render hold what their factories give on the state, and
    the curve has been sampled once per array of control points. *)
Definition current (depth : nat) (s : State) (shown : Rendered) : Prop :=
  deps (curveMemo shown) = pointsRef s /\
  value (curveMemo shown) = curvePoints depth (points s) /\
  runs (curveMemo shown) = S (pointsRef s) /\
  deps (pyramidMemo shown) = (pointsRef s, t s) /\
  value (pyramidMemo shown) = intermediatePoints (t s) (points s).

(** Each number is below ([<]) the next one. *)
Fixpoint ascending (l : list number) : bool :=
  match l with
  | a :: ((b :: _) as rest) => (a <? b) && ascending rest
  | _ => true
  end.

(** The character of a decimal digit. *)
Definition digitChar (d : nat) : ascii := ascii_of_nat (48 + d).

(** The string that writes out a list of decimal digits. *)
Definition numeral (digits : list nat) : string :=
  string_of_list_ascii (map digitChar digits).

(** The integer a list of decimal digits denotes. *)
Definition numeralValue (digits : list nat) : Z :=
  fold_left (fun a d => a * 10 + Z.of_nat d)%Z digits 0%Z.

(** A rest of an entry that cannot be read as more of a decimal numeral,
    nor turn a leading 0 into a hexadecimal prefix. *)
Definition endsNumeral (rest : string) : bool :=
  match rest with
  | EmptyString => true
  | String c _ =>
      match digitValue c with
      | None => true
      | Some d => (10 <=? d)%Z && negb (Ascii.eqb c "x") && negb (Ascii.eqb c "X")
      end
  end.

(** * Properties *)

(** ** The reduction loop *)

Lemma newPoints_length (t : number) (controlPoints : list Point) :
  List.length (newPoints t controlPoints) = Nat.pred (List.length controlPoints).
Proof.
  induction controlPoints as [|p [|q rest] IH]; simpl in *; auto.
Qed.

Lemma calculateBezierPoint_eq (depth : nat) (t : number) (controlPoints : list Point) :
  calculateBezierPoint depth t controlPoints =
  if (List.length controlPoints =? 1)%nat then nth_error controlPoints 0
  else
    match depth with
    | O => None
    | S depth' => calculateBezierPoint depth' t (newPoints t controlPoints)
    end.
Proof. destruct depth; reflexivity. Qed.

Lemma recursiveCalls_eq (depth : nat) (t : number) (controlPoints : list Point) :
  recursiveCalls depth t controlPoints =
  if (List.length controlPoints =? 1)%nat then Some O
  else
    match depth with
    | O => None
    | S depth' => option_map S (recursiveCalls depth' t (newPoints t controlPoints))
    end.
Proof. destruct depth; reflexivity. Qed.

Lemma intermediateLoop_eq (t : number) (currentPoints : list Point)
  (allPoints : list (list Point)) :
  intermediateLoop t currentPoints allPoints =
  if (1 <? List.length currentPoints)%nat
  then intermediateLoop t (newPoints t currentPoints)
         (allPoints ++ [newPoints t currentPoints])
  else allPoints.
Proof.
  funelim (intermediateLoop t currentPoints allPoints); rewrite e; reflexivity.
Qed.

Lemma level_length (k : nat) (t : number) (points : list Point) :
  List.length (level k t points) = (List.length points - k)%nat.
Proof.
  induction k as [|k IH]; simpl.
  - lia.
  - rewrite newPoints_length. fold (level k t points). lia.
Qed.

Lemma level_shift (k : nat) (t : number) (points : list Point) :
  level (S k) t points = level k t (newPoints t points).
Proof.
  unfold level. induction k as [|k IH]; simpl in *; congruence.
Qed.

(** What the [while] loop appends: the levels [1 .. n] below [currentPoints]. *)
Lemma intermediateLoop_levels (n : nat) :
  forall (t : number) (currentPoints : list Point) (allPoints : list (list Point)),
    Nat.pred (List.length currentPoints) = n ->
    intermediateLoop t currentPoints allPoints =
    allPoints ++ map (fun k => level (S k) t currentPoints) (seq 0 n).
Proof.
  induction n as [|n IH]; intros t0 currentPoints allPoints Hlen;
    rewrite intermediateLoop_eq.
  - replace (1 <? List.length currentPoints)%nat with false
      by (symmetry; apply Nat.ltb_ge; lia).
    simpl. now rewrite app_nil_r.
  - replace (1 <? List.length currentPoints)%nat with true
      by (symmetry; apply Nat.ltb_lt; lia).
    rewrite (IH t0 (newPoints t0 currentPoints)) by (rewrite newPoints_length; lia).
    rewrite <- app_assoc. f_equal. cbn [seq map app]. f_equal.
    rewrite <- seq_shift, map_map.
    apply map_ext. intros k. now rewrite (level_shift (S k)).
Qed.

Lemma intermediatePoints_levels (t : number) (points : list Point) :
  intermediatePoints t points =
  map (fun k => level k t points) (seq 0 (S (Nat.pred (List.length points)))).
Proof.
  unfold intermediatePoints.
  rewrite (intermediateLoop_levels (Nat.pred (List.length points))) by reflexivity.
  cbn [seq map app]. f_equal. now rewrite <- seq_shift, map_map.
Qed.

(** With [n] self-calls available, a list of [n + 1] points is reduced to its
    last level, after exactly [n] self-calls. *)
Lemma calculateBezierPoint_level (n : nat) :
  forall (depth : nat) (t : number) (controlPoints : list Point),
    List.length controlPoints = S n -> (n <= depth)%nat ->
    exists p, level n t controlPoints = [p] /\
              calculateBezierPoint depth t controlPoints = Some p /\
              recursiveCalls depth t controlPoints = Some n.
Proof.
  induction n as [|n IH]; intros depth t0 controlPoints Hlen Hdepth;
    rewrite calculateBezierPoint_eq, recursiveCalls_eq, Hlen.
  - destruct controlPoints as [|p [|q rest]]; try discriminate.
    exists p. repeat split.
  - destruct depth as [|depth]; [lia|]. cbn [Nat.eqb].
    destruct (IH depth t0 (newPoints t0 controlPoints)) as (p & Hl & Hc & Hr).
    + rewrite newPoints_length, Hlen. reflexivity.
    + lia.
    + exists p. rewrite level_shift, Hl, Hc, Hr. repeat split.
Qed.

(** Without enough depth the stack overflows. *)
Lemma calculateBezierPoint_overflow (depth : nat) :
  forall (t : number) (controlPoints : list Point),
    (S depth < List.length controlPoints)%nat ->
    calculateBezierPoint depth t controlPoints = None.
Proof.
  induction depth as [|depth IH]; intros t0 controlPoints Hlen;
    rewrite calculateBezierPoint_eq;
    replace (List.length controlPoints =? 1)%nat with false
      by (symmetry; apply Nat.eqb_neq; lia); [reflexivity|].
  apply IH. rewrite newPoints_length. lia.
Qed.

(** On the empty list no depth is enough: the list stays empty. *)
Lemma calculateBezierPoint_empty (depth : nat) (t : number) :
  calculateBezierPoint depth t [] = None.
Proof.
  induction depth as [|depth IH]; [reflexivity|exact IH].
Qed.

(** ** Binary64 arithmetic

    Facts about comparisons and about the products and sums that occur at the
    ends of the parameter interval, derived from the specification of the
    primitive operations. *)

Module Binary64.

Lemma SFcompare_refl (x : spec_float) :
  x <> S754_nan -> SFcompare x x = Some Eq.
Proof.
  destruct x as [s|s| |s m e]; simpl; try congruence; intros _.
  - destruct s; reflexivity.
  - destruct s; rewrite Z.compare_refl, Pos.compare_cont_refl; reflexivity.
Qed.

Lemma SFcompare_antisym (x y : spec_float) :
  SFcompare y x = option_map CompOpp (SFcompare x y).
Proof.
  destruct x as [s|s| |s m e], y as [s'|s'| |s' m' e']; simpl; try reflexivity;
    try (destruct s; reflexivity); try (destruct s'; reflexivity);
    try (destruct s, s'; reflexivity).
  change (Pos.compare_cont Eq m m') with (Pos.compare m m').
  change (Pos.compare_cont Eq m' m) with (Pos.compare m' m).
  rewrite (Z.compare_antisym e e'), (Pos.compare_antisym m m').
  destruct s, s', (e ?= e')%Z, (m ?= m')%positive; reflexivity.
Qed.


Lemma SFcompare_Lt_trans (x y z : spec_float) :
  SFcompare x y = Some Lt -> SFcompare y z = Some Lt -> SFcompare x z = Some Lt.
Proof.
  destruct x as [s|s| |s m e], y as [s'|s'| |s' m' e'], z as [s''|s''| |s'' m'' e''];
    simpl; try discriminate; try reflexivity;
    repeat match goal with b : bool |- _ => destruct b end;
    try discriminate; try reflexivity.
  all: fold (Pos.compare m m'); fold (Pos.compare m' m''); fold (Pos.compare m m'').
  all: destruct (Z.compare_spec e e'), (Z.compare_spec e' e''); try discriminate;
       destruct (Z.compare_spec e e''); try lia; try reflexivity; subst.
  all: destruct (Pos.compare_spec m m'), (Pos.compare_spec m' m''); simpl; try discriminate;
       destruct (Pos.compare_spec m m''); simpl; try lia; try reflexivity.
Qed.


Lemma SFmul_one (x : spec_float) :
  valid_binary x = true -> SF64mul (S754_finite false 4503599627370496 (-52)) x = x.
Proof.
  destruct x as [s|s| |s m e]; try reflexivity.
  unfold SF64mul, SFmul, valid_binary, bounded, canonical_mantissa.
  intros H. apply andb_prop in H. destruct H as [Hc Hb].
  apply Z.eqb_eq in Hc.
  cbn [xorb].
  set (M := Pos.mul 4503599627370496 m).
  assert (HM : Zpos (digits2_pos M) = (Zpos (digits2_pos m) + 52)%Z)
    by (subst M; cbn [Pos.mul digits2_pos]; lia).
  assert (Hshr : SpecFloat.iter_pos shr_1 52%positive (Build_shr_record (Zpos M) false false)
                 = Build_shr_record (Zpos m) false false) by reflexivity.
  unfold binary_round_aux, shr_fexp, shr_record_of_loc.
  cbn [Zdigits2]. rewrite HM.
  replace (fexp prec emax (Zpos (digits2_pos m) + 52 + (-52 + e)) - (-52 + e))%Z
    with 52%Z.
  2:{ replace (Zpos (digits2_pos m) + 52 + (-52 + e))%Z
        with (Zpos (digits2_pos m) + e)%Z by lia.
      rewrite Hc. lia. }
  unfold shr at 1. rewrite Hshr.
  cbn [shr_m loc_of_shr_record round_nearest_even Zdigits2].
  replace (-52 + e + 52)%Z with e by lia.
  rewrite Hc, Z.sub_diag. cbn [shr shr_m]. rewrite Hb. reflexivity.
Qed.

Lemma is_nan_spec (f : float) :
  is_nan f = match Prim2SF f with S754_nan => true | _ => false end.
Proof.
  unfold is_nan. rewrite FloatAxioms.eqb_spec. unfold SFeqb.
  destruct (Prim2SF f) eqn:E; try reflexivity; rewrite SFcompare_refl; try reflexivity; congruence.
Qed.

Lemma is_finite_spec (f : float) : is_finite f = real (Prim2SF f).
Proof.
  unfold is_finite, is_infinity. rewrite is_nan_spec, FloatAxioms.eqb_spec, FloatAxioms.abs_spec.
  change (Prim2SF infinity) with (S754_infinity false).
  destruct (Prim2SF f) as [s|s| |s m e]; reflexivity.
Qed.

Lemma ltb_leb (a b : float) : (a <? b) = true -> (a <=? b) = true.
Proof.
  rewrite FloatAxioms.ltb_spec, FloatAxioms.leb_spec. unfold SFltb, SFleb.
  destruct (SFcompare (Prim2SF a) (Prim2SF b)) as [[| |]|]; congruence.
Qed.

Lemma ltb_asym (a b : float) : (a <? b) = true -> (b <? a) = false.
Proof.
  rewrite !FloatAxioms.ltb_spec. unfold SFltb. rewrite (SFcompare_antisym (Prim2SF a) (Prim2SF b)).
  destruct (SFcompare (Prim2SF a) (Prim2SF b)) as [[| |]|]; simpl; congruence.
Qed.

Lemma ltb_trans (a b c : float) : (a <? b) = true -> (b <? c) = true -> (a <? c) = true.
Proof.
  rewrite !FloatAxioms.ltb_spec. unfold SFltb.
  destruct (SFcompare (Prim2SF a) (Prim2SF b)) as [[| |]|] eqn:E1; try discriminate.
  destruct (SFcompare (Prim2SF b) (Prim2SF c)) as [[| |]|] eqn:E2; try discriminate.
  now rewrite (SFcompare_Lt_trans _ _ _ E1 E2).
Qed.

Lemma leb_ltb_eqb (a b : float) : (a <=? b) = true -> (a <? b) = false -> (a =? b) = true.
Proof.
  rewrite FloatAxioms.ltb_spec, FloatAxioms.leb_spec, FloatAxioms.eqb_spec. unfold SFltb, SFleb, SFeqb.
  destruct (SFcompare (Prim2SF a) (Prim2SF b)) as [[| |]|]; congruence.
Qed.

Lemma eqb_sym (a b : float) : (a =? b) = (b =? a).
Proof.
  rewrite !FloatAxioms.eqb_spec. unfold SFeqb. rewrite (SFcompare_antisym (Prim2SF a) (Prim2SF b)).
  destruct (SFcompare (Prim2SF a) (Prim2SF b)) as [[| |]|]; reflexivity.
Qed.

Lemma eqb_refl (a : float) : is_nan a = false -> (a =? a) = true.
Proof. unfold is_nan. now destruct (a =? a). Qed.

Lemma leb_refl (a : float) : is_nan a = false -> (a <=? a) = true.
Proof.
  rewrite is_nan_spec, FloatAxioms.leb_spec. unfold SFleb. intros H.
  rewrite SFcompare_refl; [reflexivity|]. intros E. now rewrite E in H.
Qed.

Lemma leb_not_nan (a b : float) : (a <=? b) = true -> is_nan a = false /\ is_nan b = false.
Proof.
  rewrite FloatAxioms.leb_spec, !is_nan_spec. unfold SFleb.
  destruct (Prim2SF a), (Prim2SF b); simpl; try discriminate; auto.
Qed.

Lemma ltb_not_nan (a b : float) : (a <? b) = true -> is_nan a = false /\ is_nan b = false.
Proof. intros H. apply leb_not_nan. now apply ltb_leb. Qed.

Lemma sameReal_spec (a b : float) :
  sameReal a b <->
  real (Prim2SF a) = true /\ SFcompare (Prim2SF a) (Prim2SF b) = Some Eq.
Proof.
  unfold sameReal. rewrite is_finite_spec, FloatAxioms.eqb_spec. unfold SFeqb.
  destruct (SFcompare (Prim2SF a) (Prim2SF b)) as [[| |]|]; intuition congruence.
Qed.

Lemma sameReal_refl (a : float) : is_finite a = true -> sameReal a a.
Proof.
  intros H. apply sameReal_spec. rewrite is_finite_spec in H. split; [exact H|].
  apply SFcompare_refl. intros E. now rewrite E in H.
Qed.

Lemma SFcompare_zero_l (s s' : bool) (y : spec_float) :
  SFcompare (S754_zero s) y = Some Eq -> SFcompare (S754_zero s') y = Some Eq.
Proof. destruct y; simpl; auto. Qed.

Lemma SFmul_zero (x : spec_float) :
  real x = true -> exists s, SF64mul (S754_zero false) x = S754_zero s.
Proof. destruct x; simpl; try discriminate; eauto. Qed.

(** [1 * a + 0 * b] is [a], up to the sign of a zero. *)
Lemma SF_lerp_start (a b a0 : spec_float) :
  valid_binary a = true -> real a = true -> real b = true ->
  SFcompare a a0 = Some Eq ->
  real (SF64add (SF64mul (S754_finite false 4503599627370496 (-52)) a)
                (SF64mul (S754_zero false) b)) = true /\
  SFcompare (SF64add (SF64mul (S754_finite false 4503599627370496 (-52)) a)
                     (SF64mul (S754_zero false) b)) a0 = Some Eq.
Proof.
  intros Hv Ha Hb Heq. rewrite (SFmul_one _ Hv).
  destruct (SFmul_zero _ Hb) as [s ->].
  destruct a as [sa|sa| |sa m e]; try discriminate.
  - destruct sa, s; simpl; split; trivial; eapply SFcompare_zero_l; eassumption.
  - simpl. auto.
Qed.

(** [0 * a + 1 * b] is [b], up to the sign of a zero. *)
Lemma SF_lerp_end (a b b0 : spec_float) :
  valid_binary b = true -> real a = true -> real b = true ->
  SFcompare b b0 = Some Eq ->
  real (SF64add (SF64mul (S754_zero false) a)
                (SF64mul (S754_finite false 4503599627370496 (-52)) b)) = true /\
  SFcompare (SF64add (SF64mul (S754_zero false) a)
                     (SF64mul (S754_finite false 4503599627370496 (-52)) b)) b0 = Some Eq.
Proof.
  intros Hv Ha Hb Heq. rewrite (SFmul_one _ Hv).
  destruct (SFmul_zero _ Ha) as [s ->].
  destruct b as [sb|sb| |sb m e]; try discriminate.
  - destruct sb, s; simpl; split; trivial; eapply SFcompare_zero_l; eassumption.
  - simpl. auto.
Qed.

Lemma lerp_at_0 (a b a0 : float) :
  is_finite b = true -> sameReal a a0 ->
  sameReal ((1 - 0) * a + 0 * b) a0.
Proof.
  rewrite is_finite_spec, !sameReal_spec. intros Hb [Ha Heq].
  rewrite add_spec, !mul_spec.
  change (Prim2SF (1 - 0)) with (S754_finite false 4503599627370496 (-52)).
  change (Prim2SF 0) with (S754_zero false).
  apply SF_lerp_start; auto using Prim2SF_valid.
Qed.

Lemma lerp_at_1 (a b b0 : float) :
  is_finite a = true -> sameReal b b0 ->
  sameReal ((1 - 1) * a + 1 * b) b0.
Proof.
  rewrite is_finite_spec, !sameReal_spec. intros Ha [Hb Heq].
  rewrite add_spec, !mul_spec.
  change (Prim2SF (1 - 1)) with (S754_zero false).
  change (Prim2SF 1) with (S754_finite false 4503599627370496 (-52)).
  apply SF_lerp_end; auto using Prim2SF_valid.
Qed.


(** *** Rounding of a sum onto the binary64 grid *)

Local Open Scope Z_scope.

Lemma digits2_pos_bounds (p : positive) :
  2 ^ (Zpos (digits2_pos p) - 1) <= Zpos p < 2 ^ Zpos (digits2_pos p).
Proof.
  induction p as [p IH|p IH|]; cbn [digits2_pos].
  - rewrite Pos2Z.inj_succ, (Pos2Z.inj_xI p).
    replace (Z.succ (Zpos (digits2_pos p)) - 1) with (Z.succ (Zpos (digits2_pos p) - 1)) by lia.
    rewrite !Z.pow_succ_r by lia.
    generalize dependent (2 ^ (Zpos (digits2_pos p) - 1)).
    generalize dependent (2 ^ Zpos (digits2_pos p)). intros; lia.
  - rewrite Pos2Z.inj_succ, (Pos2Z.inj_xO p).
    replace (Z.succ (Zpos (digits2_pos p)) - 1) with (Z.succ (Zpos (digits2_pos p) - 1)) by lia.
    rewrite !Z.pow_succ_r by lia.
    generalize dependent (2 ^ (Zpos (digits2_pos p) - 1)).
    generalize dependent (2 ^ Zpos (digits2_pos p)). intros; lia.
  - simpl. lia.
Qed.

Lemma digits2_pos_unique (p : positive) (d : Z) :
  2 ^ (d - 1) <= Zpos p < 2 ^ d -> Zpos (digits2_pos p) = d.
Proof.
  intros [Hlo Hhi]. destruct (digits2_pos_bounds p) as [Hlo' Hhi'].
  set (d' := Zpos (digits2_pos p)) in *.
  destruct (Z.lt_trichotomy d' d) as [H|[H|H]]; [|exact H|].
  - assert (2 ^ d' <= 2 ^ (d - 1)) by (apply Z.pow_le_mono_r; lia). lia.
  - assert (0 <= d \/ d < 0) as [Hd|Hd] by lia.
    + assert (2 ^ d <= 2 ^ (d' - 1)) by (apply Z.pow_le_mono_r; lia). lia.
    + rewrite (Z.pow_neg_r 2 d Hd) in Hhi. lia.
Qed.

Lemma iter_pos_nat {A : Type} (f : A -> A) (n : positive) :
  forall a, SpecFloat.iter_pos f n a = Nat.iter (Pos.to_nat n) f a.
Proof.
  induction n as [n IH|n IH|]; intros a; cbn [SpecFloat.iter_pos].
  - rewrite !IH, Pos2Nat.inj_xI. cbn [Nat.mul]. rewrite Nat.add_0_r.
    rewrite <- Nat.iter_add. rewrite <- Nat.iter_succ_r. reflexivity.
  - rewrite !IH, Pos2Nat.inj_xO. cbn [Nat.mul]. rewrite Nat.add_0_r.
    now rewrite <- Nat.iter_add.
  - reflexivity.
Qed.

Lemma shr_1_m (mrs : shr_record) :
  0 <= shr_m mrs -> shr_m (shr_1 mrs) = shr_m mrs / 2.
Proof.
  destruct mrs as [m r s]. cbn [shr_m]. intros Hm.
  destruct m as [|[p|p|]|p]; cbn [shr_1 shr_m]; try reflexivity; try lia.
  - rewrite (Pos2Z.inj_xI p). apply Z.div_unique with 1; lia.
  - rewrite (Pos2Z.inj_xO p). apply Z.div_unique with 0; lia.
Qed.

Lemma shr_nat_m (k : nat) (mrs : shr_record) :
  0 <= shr_m mrs -> shr_m (Nat.iter k shr_1 mrs) = shr_m mrs / 2 ^ Z.of_nat k.
Proof.
  intros Hm. induction k as [|k IH].
  - simpl. now rewrite Z.div_1_r.
  - rewrite Nat.iter_succ, shr_1_m.
    + rewrite IH, Nat2Z.inj_succ, Z.pow_succ_r by lia.
      rewrite Z.div_div by lia. f_equal. lia.
    + rewrite IH. apply Z.div_pos; lia.
Qed.

Lemma shr_m_iter (n : positive) (m : Z) (r s : bool) :
  0 <= m ->
  shr_m (SpecFloat.iter_pos shr_1 n (Build_shr_record m r s)) = m / 2 ^ Zpos n.
Proof.
  intros Hm. rewrite iter_pos_nat, shr_nat_m by exact Hm.
  cbn [shr_m]. now rewrite positive_nat_Z.
Qed.

Ltac eval_pows :=
  repeat match goal with
  | H : context [2 ^ ?k] |- _ =>
      let v := eval vm_compute in (2 ^ k) in change (2 ^ k) with v in H
  | |- context [2 ^ ?k] =>
      let v := eval vm_compute in (2 ^ k) in change (2 ^ k) with v
  end.

Ltac each_digit H :=
  destruct H as [->|[->|[->|[->|[->|[->| ->]]]]]].

Lemma round_nearest_even_cases (m : Z) (l : location) :
  round_nearest_even m l = m \/ round_nearest_even m l = m + 1.
Proof.
  destruct l as [|[ | | ]]; cbn [round_nearest_even]; auto.
  destruct (Z.even m); auto.
Qed.

Lemma binary_round_settle (q dp : positive) :
  (dp = 54 \/ dp = 55 \/ dp = 56 \/ dp = 57 \/ dp = 58 \/ dp = 59 \/ dp = 60)%positive ->
  2 ^ 52 <= Zpos q <= 2 ^ 53 ->
  exists m3 e3,
    (let '(mrs'', e'') := shr_fexp prec emax (Zpos q) (Zpos dp - 105) loc_Exact in
     match shr_m mrs'' with
     | 0 => S754_zero false
     | Z.pos m =>
         if e'' <=? emax - prec then S754_finite false m e''
         else S754_infinity false
     | Z.neg _ => S754_nan
     end) = S754_finite false m3 e3 /\
    e3 < 0 /\
    Zpos m3 / 2 ^ (- e3) = Zpos q / 2 ^ (105 - Zpos dp).
Proof.
  intros Hcases Hq.
  assert (Hsplit : Zpos q < 2 ^ 53 \/ q = 9007199254740992%positive)
    by (eval_pows; lia).
  destruct Hsplit as [Hlt| ->].
  - assert (Hdig : digits2_pos q = 53%positive).
    { apply Pos2Z.inj. apply digits2_pos_unique. change (53 - 1) with 52. lia. }
    exists q, (Zpos dp - 105). unfold shr_fexp. cbn [Zdigits2]. rewrite Hdig.
    each_digit Hcases; (split; [reflexivity|split; [reflexivity|reflexivity]]).
  - exists 4503599627370496%positive, (Zpos dp - 104).
    each_digit Hcases; (split; [reflexivity|split; [reflexivity|reflexivity]]).
Qed.

Lemma binary_round_grid (S : positive) :
  54 <= Zpos (digits2_pos S) <= 60 ->
  exists m3 e3,
    binary_round prec emax false S (-52) = S754_finite false m3 e3 /\
    e3 < 0 /\
    Zpos S / 2 ^ 52 <= Zpos m3 / 2 ^ (- e3)
      <= (Zpos S + 128) / 2 ^ 52.
Proof.
  intros Hd. pose proof (digits2_pos_bounds S) as HS.
  remember (digits2_pos S) as dp eqn:Hdp.
  assert (Hcases : (dp = 54 \/ dp = 55 \/ dp = 56 \/ dp = 57 \/ dp = 58 \/ dp = 59 \/ dp = 60)%positive) by lia.
  assert (H1 : shl_align S (-52) (fexp prec emax (Zpos dp + -52)) = (S, -52))
    by (each_digit Hcases; reflexivity).
  assert (H2 : shr_fexp prec emax (Zpos S) (-52) loc_Exact
               = (SpecFloat.iter_pos shr_1 (dp - 53)%positive
                    (Build_shr_record (Zpos S) false false), Zpos dp - 105)).
  { unfold shr_fexp. cbn [Zdigits2]. rewrite <- Hdp.
    each_digit Hcases; reflexivity. }
  unfold binary_round. rewrite <- Hdp, H1. unfold binary_round_aux. rewrite H2.
  pose proof (shr_m_iter (dp - 53)%positive (Zpos S) false false ltac:(lia)) as Hm1.
  destruct (SpecFloat.iter_pos shr_1 (dp - 53)%positive
              (Build_shr_record (Zpos S) false false)) as [m1 r1 s1].
  cbn [shr_m] in *. clear H1 H2 Hdp.
  assert (Hb : 2 ^ 52 <= m1 < 2 ^ 53).
  { subst m1. each_digit Hcases; eval_pows;
      Z.to_euclidean_division_equations; lia. }
  set (m2 := round_nearest_even m1
               (loc_of_shr_record {| shr_m := m1; shr_r := r1; shr_s := s1 |})).
  assert (Hm2 : m2 = m1 \/ m2 = m1 + 1) by apply round_nearest_even_cases.
  clearbody m2.
  assert (Hq : m2 = Zpos (Z.to_pos m2)) by (rewrite Z2Pos.id; eval_pows; lia).
  rewrite Hq.
  destruct (binary_round_settle (Z.to_pos m2) dp Hcases) as (m3 & e3 & Hr & He & Hv);
    [rewrite <- Hq; eval_pows; lia|].
  exists m3, e3. split; [exact Hr|]. split; [exact He|].
  rewrite Hv, <- Hq. subst m1.
  each_digit Hcases; eval_pows; Z.to_euclidean_division_equations; lia.
Qed.

(** *** The number nearest to an integer *)

Lemma Pos_iter_xO (m d : positive) :
  Zpos (Pos.iter xO m d) = Zpos m * 2 ^ Zpos d.
Proof.
  induction d as [|d IH] using Pos.peano_ind.
  - cbn [Pos.iter]. rewrite (Pos2Z.inj_xO m). change (2 ^ 1) with 2. lia.
  - rewrite Pos.iter_succ, (Pos2Z.inj_xO (Pos.iter xO m d)), IH, Pos2Z.inj_succ.
    rewrite Z.pow_succ_r by lia. lia.
Qed.

(** The second half of [binary_round_aux]: renormalise after rounding. *)
Lemma binary_round_finish (s : bool) (q : positive) (e1 : Z) :
  2 ^ 52 <= Zpos q <= 2 ^ 53 -> -52 <= e1 ->
  let R :=
    (let '(mrs'', e'') := shr_fexp prec emax (Zpos q) e1 loc_Exact in
     match shr_m mrs'' with
     | 0 => S754_zero s
     | Z.pos m =>
         if e'' <=? emax - prec then S754_finite s m e'' else S754_infinity s
     | Z.neg _ => S754_nan
     end) in
  R = S754_infinity s \/
  exists m3 e3,
    R = S754_finite s m3 e3 /\
    Zpos (digits2_pos m3) = 53 /\ e1 <= e3 <= emax - prec /\
    (Zpos q < 2 ^ 53 -> m3 = q /\ e3 = e1).
Proof.
  intros Hq He1 R. subst R.
  assert (Hsplit : Zpos q < 2 ^ 53 \/ q = 9007199254740992%positive)
    by (eval_pows; lia).
  destruct Hsplit as [Hlt| ->].
  - assert (Hdig : Zpos (digits2_pos q) = 53)
      by (apply digits2_pos_unique; change (53 - 1) with 52; lia).
    unfold shr_fexp. cbn [Zdigits2]. rewrite Hdig.
    replace (fexp prec emax (53 + e1) - e1) with 0
      by (unfold fexp, SpecFloat.emin, prec, emax; lia).
    cbn [shr shr_record_of_loc shr_m].
    destruct (Z.leb_spec e1 (emax - prec)); [right|now left].
    exists q, e1. repeat split; auto; lia.
  - unfold shr_fexp. cbn [Zdigits2].
    change (Zpos (digits2_pos 9007199254740992)) with 54.
    replace (fexp prec emax (54 + e1) - e1) with 1
      by (unfold fexp, SpecFloat.emin, prec, emax; lia).
    cbn [shr shr_record_of_loc SpecFloat.iter_pos shr_1 shr_m].
    destruct (Z.leb_spec (e1 + 1) (emax - prec)); [right|now left].
    exists 4503599627370496%positive, (e1 + 1).
    repeat split; auto; try lia; eval_pows; lia.
Qed.

Lemma binary_round_integer (s : bool) (p : positive) :
  binary_round prec emax s p 0 = S754_infinity s \/
  exists m3 e3,
    binary_round prec emax s p 0 = S754_finite s m3 e3 /\
    Zpos (digits2_pos m3) = 53 /\ -52 <= e3 <= emax - prec /\
    (e3 <= 0 -> Zpos m3 = Zpos p * 2 ^ (- e3)).
Proof.
  pose proof (digits2_pos_bounds p) as Hp.
  set (d := Zpos (digits2_pos p)) in *.
  assert (Hd : 1 <= d) by (subst d; lia).
  unfold binary_round. fold d.
  destruct (Z.lt_trichotomy d 53) as [Hlt|[Heq|Hgt]].
  - (* the integer is shifted left onto 53 bits *)
    replace (fexp prec emax (d + 0)) with (d - 53)
      by (unfold fexp, SpecFloat.emin, prec, emax; lia).
    unfold shl_align.
    destruct (d - 53 - 0) as [|k|k] eqn:Hk; try lia.
    assert (Hmz : Zpos (Pos.iter xO p k) = Zpos p * 2 ^ (53 - d))
      by (rewrite Pos_iter_xO; f_equal; f_equal; lia).
    assert (Hb : 2 ^ 52 <= Zpos (Pos.iter xO p k) < 2 ^ 53).
    { rewrite Hmz.
      replace (2 ^ 52) with (2 ^ (d - 1) * 2 ^ (53 - d))
        by (rewrite <- Z.pow_add_r by lia; f_equal; lia).
      replace (2 ^ 53) with (2 ^ d * 2 ^ (53 - d))
        by (rewrite <- Z.pow_add_r by lia; f_equal; lia).
      assert (0 < 2 ^ (53 - d)) by (apply Z.pow_pos_nonneg; lia).
      nia. }
    assert (Hfirst : shr_fexp prec emax (Zpos (Pos.iter xO p k)) (d - 53) loc_Exact
                     = (Build_shr_record (Zpos (Pos.iter xO p k)) false false, d - 53)).
    { unfold shr_fexp. cbn [Zdigits2].
      rewrite (digits2_pos_unique _ 53) by (change (53 - 1) with 52; exact Hb).
      replace (fexp prec emax (53 + (d - 53)) - (d - 53)) with 0
        by (unfold fexp, SpecFloat.emin, prec, emax; lia).
      reflexivity. }
    unfold binary_round_aux. rewrite Hfirst.
    cbn [shr_m loc_of_shr_record round_nearest_even].
    destruct (binary_round_finish s (Pos.iter xO p k) (d - 53))
      as [Hinf|(m3 & e3 & Hr & Hdig & He & Hsame)]; [lia|lia|now left|].
    right. exists m3, e3. destruct (Hsame ltac:(lia)) as [-> ->].
    split; [exact Hr|]. split; [exact Hdig|]. split; [unfold prec, emax in *; lia|].
    intros _. rewrite Hmz. f_equal. f_equal. lia.
  - (* the integer has exactly 53 bits *)
    replace (fexp prec emax (d + 0)) with 0
      by (unfold fexp, SpecFloat.emin, prec, emax; lia).
    cbn [shl_align Z.sub Z.opp Z.add].
    assert (Hfirst : shr_fexp prec emax (Zpos p) 0 loc_Exact
                     = (Build_shr_record (Zpos p) false false, 0)).
    { unfold shr_fexp. cbn [Zdigits2]. fold d. rewrite Heq. reflexivity. }
    unfold binary_round_aux. rewrite Hfirst.
    cbn [shr_m loc_of_shr_record round_nearest_even].
    assert (Hb : 2 ^ 52 <= Zpos p < 2 ^ 53)
      by (rewrite Heq in Hp; change (53 - 1) with 52 in Hp; exact Hp).
    destruct (binary_round_finish s p 0)
      as [Hinf|(m3 & e3 & Hr & Hdig & He & Hsame)]; [lia|lia|now left|].
    right. exists m3, e3. destruct (Hsame ltac:(lia)) as [-> ->].
    split; [exact Hr|]. split; [exact Hdig|]. split; [unfold prec, emax in *; lia|].
    intros _. change (2 ^ (- 0)) with 1. lia.
  - (* the integer is rounded to 53 bits *)
    replace (fexp prec emax (d + 0)) with (d - 53)
      by (unfold fexp, SpecFloat.emin, prec, emax; lia).
    unfold shl_align.
    destruct (d - 53 - 0) as [|k|k] eqn:Hk; try lia.
    assert (Hfirst : shr_fexp prec emax (Zpos p) 0 loc_Exact
                     = (SpecFloat.iter_pos shr_1 k
                          (Build_shr_record (Zpos p) false false), 0 + Zpos k)).
    { unfold shr_fexp. cbn [Zdigits2]. fold d.
      replace (fexp prec emax (d + 0) - 0) with (Zpos k)
        by (unfold fexp, SpecFloat.emin, prec, emax; lia).
      reflexivity. }
    unfold binary_round_aux. rewrite Hfirst. clear Hfirst.
    pose proof (shr_m_iter k (Zpos p) false false ltac:(lia)) as Hm1.
    destruct (SpecFloat.iter_pos shr_1 k (Build_shr_record (Zpos p) false false))
      as [m1 r1 s1].
    cbn [shr_m] in *.
    assert (Hb : 2 ^ 52 <= m1 < 2 ^ 53).
    { subst m1. assert (0 < 2 ^ Zpos k) by (apply Z.pow_pos_nonneg; lia). split.
      - apply Z.div_le_lower_bound; [assumption|].
        rewrite <- Z.pow_add_r by lia.
        replace (Zpos k + 52) with (d - 1) by lia. apply Hp.
      - apply Z.div_lt_upper_bound; [assumption|].
        rewrite <- Z.pow_add_r by lia.
        replace (Zpos k + 53) with d by lia. apply Hp. }
    set (m2 := round_nearest_even m1
                 (loc_of_shr_record {| shr_m := m1; shr_r := r1; shr_s := s1 |})).
    assert (Hm2 : m2 = m1 \/ m2 = m1 + 1) by apply round_nearest_even_cases.
    clearbody m2.
    assert (Hq : m2 = Zpos (Z.to_pos m2)) by (rewrite Z2Pos.id; eval_pows; lia).
    rewrite Hq.
    destruct (binary_round_finish s (Z.to_pos m2) (0 + Zpos k))
      as [Hinf|(m3 & e3 & Hr & Hdig & He & _)];
      [rewrite <- Hq; eval_pows; lia|lia|now left|].
    right. exists m3, e3.
    split; [exact Hr|]. split; [exact Hdig|]. split; [unfold prec, emax in *; lia|].
    intros Hneg. lia.
Qed.

Lemma binary_normalize_integer (z : Z) :
  binary_normalize prec emax z 0 false = S754_zero false /\ z = 0 \/
  binary_normalize prec emax z 0 false = S754_infinity (z <? 0) /\ z <> 0 \/
  exists m3 e3,
    binary_normalize prec emax z 0 false = S754_finite (z <? 0) m3 e3 /\
    z <> 0 /\
    Zpos (digits2_pos m3) = 53 /\ -52 <= e3 <= emax - prec /\
    (e3 <= 0 -> Zpos m3 = Z.abs z * 2 ^ (- e3)).
Proof.
  destruct z as [|p|p]; cbn [binary_normalize Z.ltb Z.compare Z.abs].
  - left. split; reflexivity.
  - right. destruct (binary_round_integer false p)
      as [Hinf|(m3 & e3 & Hr & H)]; [left; split; [exact Hinf|discriminate]|].
    right. exists m3, e3. split; [exact Hr|]. split; [discriminate|exact H].
  - right. destruct (binary_round_integer true p)
      as [Hinf|(m3 & e3 & Hr & H)]; [left; split; [exact Hinf|discriminate]|].
    right. exists m3, e3. split; [exact Hr|]. split; [discriminate|exact H].
Qed.

Lemma Z2number_spec (z : Z) :
  Prim2SF (Z2number z) = binary_normalize prec emax z 0 false.
Proof.
  unfold Z2number. apply Prim2SF_SF2Prim.
  destruct (binary_normalize_integer z)
    as [[-> _]|[[-> _]|(m3 & e3 & -> & _ & Hdig & He & _)]]; try reflexivity.
  cbn [valid_binary]. unfold bounded, canonical_mantissa. rewrite Hdig.
  apply andb_true_intro. split.
  - apply Z.eqb_eq. unfold fexp, SpecFloat.emin, prec, emax in *. lia.
  - apply Z.leb_le. lia.
Qed.

Lemma Z2number_below_1 (z : Z) : z <= 0 -> (Z2number z <? 1)%float = true.
Proof.
  intros Hz. rewrite FloatAxioms.ltb_spec, Z2number_spec. unfold SFltb.
  change (Prim2SF 1) with (S754_finite false 4503599627370496 (-52)).
  destruct (binary_normalize_integer z)
    as [[-> _]|[[-> Hnz]|(m3 & e3 & -> & Hnz & _)]].
  - reflexivity.
  - replace (z <? 0) with true by (symmetry; apply Z.ltb_lt; lia). reflexivity.
  - replace (z <? 0) with true by (symmetry; apply Z.ltb_lt; lia). reflexivity.
Qed.

Lemma Z2number_above_100 (z : Z) : 100 < z -> (100 <? Z2number z)%float = true.
Proof.
  intros Hz. rewrite FloatAxioms.ltb_spec, Z2number_spec. unfold SFltb.
  change (Prim2SF 100) with (S754_finite false 7036874417766400 (-46)).
  destruct (binary_normalize_integer z)
    as [[_ Hz0]|[[-> Hnz]|(m3 & e3 & -> & Hnz & Hdig & He & Hexact)]]; [lia| |].
  - replace (z <? 0) with false by (symmetry; apply Z.ltb_ge; lia). reflexivity.
  - replace (z <? 0) with false by (symmetry; apply Z.ltb_ge; lia).
    cbn [SFcompare]. fold (Pos.compare 7036874417766400 m3).
    pose proof (digits2_pos_bounds m3) as Hm3. rewrite Hdig in Hm3.
    change (53 - 1) with 52 in Hm3.
    destruct (Z.compare_spec (-46) e3) as [He3|He3|He3]; [|reflexivity|].
    + subst e3. rewrite Z.abs_eq in Hexact by lia. specialize (Hexact ltac:(lia)).
      change (2 ^ (- -46)) with 70368744177664 in Hexact.
      destruct (Pos.compare_spec 7036874417766400 m3) as [H|H|H];
        [subst m3|reflexivity|apply Pos2Z.pos_lt_pos in H]; exfalso.
      * change (Zpos 7036874417766400) with (100 * 70368744177664) in Hexact. lia.
      * change (Zpos 7036874417766400) with (100 * 70368744177664) in H. lia.
    + exfalso. rewrite Z.abs_eq in Hexact by lia. specialize (Hexact ltac:(lia)).
      assert (2 ^ 47 <= 2 ^ (- e3)) by (apply Z.pow_le_mono_r; lia).
      revert Hm3 H Hexact. eval_pows. generalize (2 ^ (- e3)). intros. nia.
Qed.

Local Close Scope Z_scope.

(** *** Numbers between 1 and 100 *)

Lemma between_1_and_100 (n : float) :
  (1 <=? n) = true -> (n <=? 100) = true ->
  exists m e,
    Prim2SF n = S754_finite false m e /\
    (-52 <= e <= -46)%Z /\
    (2 ^ 52 <= Zpos m < 2 ^ 53)%Z /\
    (e = -46 -> Zpos m <= 7036874417766400)%Z.
Proof.
  rewrite !FloatAxioms.leb_spec. unfold SFleb.
  rewrite (SFcompare_antisym (Prim2SF 100) (Prim2SF n)).
  change (Prim2SF 1) with (S754_finite false 4503599627370496 (-52)).
  change (Prim2SF 100) with (S754_finite false 7036874417766400 (-46)).
  pose proof (Prim2SF_valid n) as Hv.
  destruct (Prim2SF n) as [s|s| |s m e]; cbn [SFcompare option_map CompOpp];
    try discriminate; try (destruct s; discriminate).
  destruct s; [discriminate|].
  intros H1 H2. exists m, e. split; [reflexivity|].
  fold (Pos.compare 4503599627370496 m) in H1.
  fold (Pos.compare 7036874417766400 m) in H2.
  cbn [valid_binary] in Hv. unfold bounded, canonical_mantissa in Hv.
  apply andb_prop in Hv. destruct Hv as [Hc _]. apply Z.eqb_eq in Hc.
  unfold fexp, SpecFloat.emin, prec, emax in Hc.
  destruct (Z.compare_spec (-52) e) as [He1|He1|He1]; try discriminate;
  destruct (Z.compare_spec (-46) e) as [He2|He2|He2]; try discriminate.
  all: assert (Hd : Zpos (digits2_pos m) = 53%Z) by lia;
       pose proof (digits2_pos_bounds m) as Hm; rewrite Hd in Hm;
       change (53 - 1)%Z with 52%Z in Hm.
  all: split; [lia|split; [exact Hm|]].
  all: try (intros; lia).
  all: intros _; destruct (Pos.compare_spec 7036874417766400 m) as [H|H|H];
       try discriminate;
       [subst m; discriminate
       |apply Z.lt_le_incl; apply Pos2Z.pos_lt_pos; exact H].
Qed.

Lemma digits2_pos_range (S : positive) :
  (2 ^ 53 <= Zpos S < 2 ^ 60)%Z -> (54 <= Zpos (digits2_pos S) <= 60)%Z.
Proof.
  intros [Hlo Hhi]. destruct (digits2_pos_bounds S) as [Hlo' Hhi'].
  set (d := Zpos (digits2_pos S)) in *. split.
  - destruct (Z.le_gt_cases 54 d) as [H|H]; [exact H|].
    assert (2 ^ d <= 2 ^ 53)%Z by (apply Z.pow_le_mono_r; lia). lia.
  - destruct (Z.le_gt_cases d 60) as [H|H]; [exact H|].
    assert (2 ^ 60 <= 2 ^ (d - 1))%Z by (apply Z.pow_le_mono_r; lia). lia.
Qed.

Lemma ToLength_successor (n : float) :
  (1 <=? n) = true -> (n <=? 100) = true ->
  (2 <= ToLength (n + 1)%float <= 101)%nat.
Proof.
  intros H1 H2.
  destruct (between_1_and_100 n H1 H2) as (m & e & HP & He & Hm & Htop).
  assert (Hsum : exists S : positive,
             SF64add (S754_finite false m e)
                     (S754_finite false 4503599627370496 (-52))
             = binary_round prec emax false S (-52) /\
             (2 ^ 53 <= Zpos S <= 101 * 2 ^ 52)%Z).
  { assert (Hcases : (e = -52 \/ e = -51 \/ e = -50 \/ e = -49 \/ e = -48 \/
                      e = -47 \/ e = -46)%Z) by lia.
    clear He. each_digit Hcases.
    - exists (1 * m + 4503599627370496)%positive. split; [reflexivity|].
      rewrite Pos2Z.inj_add, Pos2Z.inj_mul. eval_pows. lia.
    - exists (2 * m + 4503599627370496)%positive. split; [reflexivity|].
      rewrite Pos2Z.inj_add, Pos2Z.inj_mul. eval_pows. lia.
    - exists (4 * m + 4503599627370496)%positive. split; [reflexivity|].
      rewrite Pos2Z.inj_add, Pos2Z.inj_mul. eval_pows. lia.
    - exists (8 * m + 4503599627370496)%positive. split; [reflexivity|].
      rewrite Pos2Z.inj_add, Pos2Z.inj_mul. eval_pows. lia.
    - exists (16 * m + 4503599627370496)%positive. split; [reflexivity|].
      rewrite Pos2Z.inj_add, Pos2Z.inj_mul. eval_pows. lia.
    - exists (32 * m + 4503599627370496)%positive. split; [reflexivity|].
      rewrite Pos2Z.inj_add, Pos2Z.inj_mul. eval_pows. lia.
    - exists (64 * m + 4503599627370496)%positive. split; [reflexivity|].
      rewrite Pos2Z.inj_add, Pos2Z.inj_mul. specialize (Htop eq_refl).
      eval_pows. lia. }
  destruct Hsum as (S & Hadd & HS).
  destruct (binary_round_grid S) as (m3 & e3 & Hr & He3 & Hv).
  { apply digits2_pos_range. eval_pows. lia. }
  unfold ToLength, truncate. rewrite add_spec, HP.
  change (Prim2SF 1) with (S754_finite false 4503599627370496 (-52)).
  rewrite Hadd, Hr.
  replace (0 <=? e3)%Z with false by (symmetry; apply Z.leb_gt; exact He3).
  rewrite Z.shiftr_div_pow2 by lia.
  assert (2 <= Zpos m3 / 2 ^ (- e3) <= 101)%Z.
  { eval_pows. revert Hv. eval_pows. generalize (Zpos m3 / 2 ^ (- e3))%Z.
    intros T HT. Z.to_euclidean_division_equations. lia. }
  eval_pows. lia.
Qed.

End Binary64.

(** ** Clamping with [Math.max] and [Math.min] *)

Section Clamp.

Import Binary64.

Variables lo hi : number.
Hypothesis lo_number : is_nan lo = false.
Hypothesis hi_number : is_nan hi = false.
Hypothesis lo_above : (neg_infinity <? lo) = true.
Hypothesis hi_below : (hi <? infinity) = true.
Hypothesis lo_sign : is_neg_zero lo = false.
Hypothesis hi_sign : is_pos_zero hi = false.
Hypothesis lo_hi : (lo <? hi) = true.

Lemma Math_min_bound (v : number) :
  is_nan v = false -> Math_min hi v = if v <? hi then v else hi.
Proof.
  intros Hv. unfold Math_min, min_step.
  rewrite hi_number, Hv. cbn [orb].
  change (is_pos_zero infinity) with false.
  now rewrite andb_false_r, hi_below, hi_sign, andb_false_r.
Qed.

Lemma Math_max_bound (v : number) :
  is_nan v = false -> Math_max lo v = if lo <? v then v else lo.
Proof.
  intros Hv. unfold Math_max, max_step.
  rewrite lo_number, Hv. cbn [orb].
  change (is_neg_zero neg_infinity) with false.
  now rewrite andb_false_r, lo_above, lo_sign, andb_false_r.
Qed.

Lemma Math_min_nan (v : number) : is_nan v = true -> Math_min hi v = nan.
Proof. intros Hv. unfold Math_min. now rewrite Hv, orb_true_r. Qed.

Lemma Math_max_nan (v : number) : is_nan v = true -> Math_max lo v = nan.
Proof. intros Hv. unfold Math_max. now rewrite Hv, orb_true_r. Qed.

Lemma clamp_cases (v : number) :
  is_nan v = false ->
  clamp lo hi v = if v <? hi then (if lo <? v then v else lo) else hi.
Proof.
  intros Hv. unfold clamp. rewrite (Math_min_bound v Hv).
  destruct (v <? hi) eqn:E.
  - now apply Math_max_bound.
  - rewrite (Math_max_bound hi hi_number). now rewrite lo_hi.
Qed.

Lemma clamp_nan (v : number) : is_nan v = true -> clamp lo hi v = nan.
Proof.
  intros Hv. unfold clamp. rewrite (Math_min_nan _ Hv). now apply Math_max_nan.
Qed.

Lemma clamp_range (v : number) :
  is_nan v = false -> (lo <=? clamp lo hi v) = true /\ (clamp lo hi v <=? hi) = true.
Proof.
  intros Hv. rewrite (clamp_cases v Hv).
  destruct (v <? hi) eqn:E1; [destruct (lo <? v) eqn:E2|];
    auto using ltb_leb, leb_refl.
Qed.

Lemma clamp_below (v : number) : (v <? lo) = true -> clamp lo hi v = lo.
Proof.
  intros H. rewrite clamp_cases by apply (ltb_not_nan _ _ H).
  now rewrite (ltb_trans _ _ _ H lo_hi), (ltb_asym _ _ H).
Qed.

Lemma clamp_above (v : number) : (hi <? v) = true -> clamp lo hi v = hi.
Proof.
  intros H. rewrite clamp_cases by apply (ltb_not_nan _ _ H).
  now rewrite (ltb_asym _ _ H).
Qed.

Lemma clamp_inside (v : number) :
  (lo <=? v) = true -> (v <=? hi) = true -> (clamp lo hi v =? v) = true.
Proof.
  intros H1 H2. destruct (leb_not_nan _ _ H1) as [_ Hv].
  rewrite (clamp_cases v Hv).
  destruct (v <? hi) eqn:E1; [destruct (lo <? v) eqn:E2|].
  - now apply eqb_refl.
  - now apply leb_ltb_eqb.
  - rewrite eqb_sym. now apply leb_ltb_eqb.
Qed.

Lemma clamp_clampedTo (v : number) :
  is_nan v = false -> clampedTo lo hi v (clamp lo hi v).
Proof.
  intros Hv. destruct (clamp_range v Hv) as [H1 H2].
  repeat split; auto using clamp_below, clamp_above, clamp_inside.
Qed.

End Clamp.

Ltac clamp_side := first [reflexivity | assumption].

(** ** Geometry core *)

Lemma last_map_seq {A : Type} (f : nat -> A) (n : nat) (d : A) :
  last (map f (seq 0 (S n))) d = f n.
Proof.
  rewrite seq_S, map_app. cbn [map Nat.add]. apply last_last.
Qed.

(** C1. For every parameter [t] and every non-empty control-point list,
    [calculateBezierPoint] (given the depth its recursion needs) returns the
    point that is the only element of the last level [intermediatePoints]
    builds. *)
Theorem calculateBezierPoint_is_final_level
  (depth : nat) (t0 : number) (controlPoints : list Point) :
  controlPoints <> [] ->
  (List.length controlPoints - 1 <= depth)%nat ->
  exists p,
    calculateBezierPoint depth t0 controlPoints = Some p /\
    last (intermediatePoints t0 controlPoints) [] = [p].
Proof.
  intros Hne Hdepth.
  destruct controlPoints as [|first rest]; [congruence|].
  destruct (calculateBezierPoint_level (List.length rest) depth t0 (first :: rest))
    as (p & Hlevel & Hvalue & _); [reflexivity|simpl in Hdepth; lia|].
  exists p. split; [exact Hvalue|].
  rewrite intermediatePoints_levels. cbn [List.length Nat.pred].
  now rewrite last_map_seq.
Qed.

Lemma calculateBezierPoint_is_final_level_witness :
  exists p,
    calculateBezierPoint 2 0.5 [mkPoint 0 0; mkPoint 1 2; mkPoint 4 4] = Some p /\
    last (intermediatePoints 0.5 [mkPoint 0 0; mkPoint 1 2; mkPoint 4 4]) [] = [p].
Proof.
  apply calculateBezierPoint_is_final_level; [discriminate|simpl; lia].
Defined.

(** C2, as the code has it.  [intermediatePoints] returns one level per
    point of a non-empty list, and a single (empty) level for the empty list:
    [max 1 (length points)] levels in all; level [k] is the list after [k]
    rounds of interpolation and has [length points - k] points; a list of 0 or
    1 points is returned as the only level. *)
Theorem intermediatePoints_shape (t0 : number) (controlPoints : list Point) :
  List.length (intermediatePoints t0 controlPoints)
    = Nat.max 1 (List.length controlPoints) /\
  (forall k, (k < Nat.max 1 (List.length controlPoints))%nat ->
     nth_error (intermediatePoints t0 controlPoints) k = Some (level k t0 controlPoints) /\
     List.length (level k t0 controlPoints) = (List.length controlPoints - k)%nat) /\
  ((List.length controlPoints <= 1)%nat ->
     intermediatePoints t0 controlPoints = [controlPoints]).
Proof.
  rewrite intermediatePoints_levels.
  assert (Hcount : S (Nat.pred (List.length controlPoints))
                   = Nat.max 1 (List.length controlPoints)) by lia.
  rewrite Hcount. repeat split.
  - now rewrite length_map, length_seq.
  - rewrite nth_error_map, nth_error_seq.
    apply Nat.ltb_lt in H. now rewrite H.
  - apply level_length.
  - intros Hsmall. replace (Nat.max 1 (List.length controlPoints)) with 1%nat by lia.
    reflexivity.
Qed.

Lemma intermediatePoints_shape_witness :
  List.length (intermediatePoints 0.5 [mkPoint 0 0; mkPoint 1 2; mkPoint 4 4]) = 3%nat /\
  nth_error (intermediatePoints 0.5 [mkPoint 0 0; mkPoint 1 2; mkPoint 4 4]) 1
    = Some [mkPoint 0.5 1; mkPoint 2.5 3] /\
  intermediatePoints 0.5 [mkPoint 7 9] = [[mkPoint 7 9]].
Proof.
  destruct (intermediatePoints_shape 0.5 [mkPoint 0 0; mkPoint 1 2; mkPoint 4 4])
    as (Hcount & Hlevel & _).
  destruct (intermediatePoints_shape 0.5 [mkPoint 7 9]) as (_ & _ & Hone).
  split; [exact Hcount|].
  split; [exact (proj1 (Hlevel 1%nat ltac:(simpl; lia)))|].
  apply Hone. simpl. lia.
Defined.

(** C2 fails on the empty list: it has no point, yet one level is returned. *)
Lemma intermediatePoints_empty_has_a_level :
  List.length (intermediatePoints 0.5 []) <> List.length (@nil Point).
Proof. vm_compute. discriminate. Qed.

(** C3, as the code has it.  On the empty list [calculateBezierPoint] never
    returns: the list stays empty, so the recursion exhausts any stack.  The
    sampler does not call it there: [curvePoints] returns the empty curve. *)
Theorem calculateBezierPoint_empty_overflows (depth : nat) (t0 : number) :
  calculateBezierPoint depth t0 [] = None /\
  newPoints t0 [] = [] /\
  curvePoints depth [] = Some [].
Proof.
  split; [apply calculateBezierPoint_empty|split; reflexivity].
Qed.

(** C3 fails: no stack depth makes the call on the empty list return. *)
Lemma calculateBezierPoint_empty_no_result :
  ~ (exists depth outcome, calculateBezierPoint depth 0.5 [] = Some outcome).
Proof.
  intros (depth & outcome & H). rewrite calculateBezierPoint_empty in H. discriminate.
Qed.

(** C10, as the code has it.  On a non-empty list every self-call is on a
    list exactly one point shorter; the call returns as soon as the stack
    affords [length - 1] nested self-calls, makes exactly that many, and
    overflows with fewer.  [intermediatePoints] has one level more than that:
    level 0 and one level per step. *)
Theorem calculateBezierPoint_terminates (t0 : number) (controlPoints : list Point) :
  controlPoints <> [] ->
  List.length (newPoints t0 controlPoints) = (List.length controlPoints - 1)%nat /\
  (forall depth, (List.length controlPoints - 1 <= depth)%nat ->
     (exists p, calculateBezierPoint depth t0 controlPoints = Some p) /\
     recursiveCalls depth t0 controlPoints = Some (List.length controlPoints - 1)%nat) /\
  (forall depth, (depth < List.length controlPoints - 1)%nat ->
     calculateBezierPoint depth t0 controlPoints = None) /\
  List.length (intermediatePoints t0 controlPoints)
    = S (List.length controlPoints - 1).
Proof.
  intros Hne. destruct controlPoints as [|first rest]; [congruence|].
  repeat split.
  - rewrite newPoints_length. simpl. lia.
  - destruct (calculateBezierPoint_level (List.length rest) depth t0 (first :: rest))
      as (p & _ & Hvalue & _); [reflexivity|simpl in H; lia|eauto].
  - destruct (calculateBezierPoint_level (List.length rest) depth t0 (first :: rest))
      as (p & _ & _ & Hcalls); [reflexivity|simpl in H; lia|].
    rewrite Hcalls. f_equal. simpl. lia.
  - intros depth Hdepth. apply calculateBezierPoint_overflow. simpl in *. lia.
  - rewrite intermediatePoints_levels, length_map, length_seq. simpl. lia.
Qed.

Lemma calculateBezierPoint_terminates_witness :
  List.length (newPoints 0.5 [mkPoint 0 0; mkPoint 1 2; mkPoint 4 4]) = 2%nat /\
  (exists p, calculateBezierPoint 2 0.5 [mkPoint 0 0; mkPoint 1 2; mkPoint 4 4] = Some p) /\
  recursiveCalls 2 0.5 [mkPoint 0 0; mkPoint 1 2; mkPoint 4 4] = Some 2%nat /\
  calculateBezierPoint 1 0.5 [mkPoint 0 0; mkPoint 1 2; mkPoint 4 4] = None /\
  List.length (intermediatePoints 0.5 [mkPoint 0 0; mkPoint 1 2; mkPoint 4 4]) = 3%nat.
Proof.
  destruct (calculateBezierPoint_terminates 0.5
              [mkPoint 0 0; mkPoint 1 2; mkPoint 4 4]) as (H1 & H2 & H3 & H4);
    [discriminate|].
  split; [exact H1|].
  destruct (H2 2%nat) as [H5 H6]; [simpl; lia|].
  split; [exact H5|]. split; [exact H6|].
  split; [apply H3; simpl; lia|exact H4].
Defined.

(** C10 fails as stated: two points (order 1) give two levels, not one. *)
Lemma intermediatePoints_levels_exceed_order :
  List.length (intermediatePoints 0.5 [mkPoint 0 0; mkPoint 1 2])
    <> Nat.sub (List.length [mkPoint 0 0; mkPoint 1 2]) 1.
Proof. vm_compute. discriminate. Qed.

(** ** Curve sampler *)

Lemma sequence_map_total {A B : Type} (f : A -> option B) (l : list A) :
  (forall a, In a l -> exists b, f a = Some b) ->
  exists r, sequence (map f l) = Some r /\ map Some r = map f l.
Proof.
  induction l as [|a l IH]; intros Hall.
  - exists []. split; reflexivity.
  - destruct (Hall a (or_introl eq_refl)) as [b Hb].
    destruct IH as (r & Hr & Hmap); [intros a' Ha'; apply Hall; now right|].
    exists (b :: r). cbn [map sequence]. rewrite Hb, Hr, Hmap. split; reflexivity.
Qed.

Lemma ToLength_100 : ToLength 100 = 100%nat.
Proof. vm_compute. reflexivity. Qed.

(** C5. [curvePoints] of the empty list is the empty curve; of a non-empty
    list (given the depth the recursion needs) it is a list of exactly 100
    points whose [i]-th element is [calculateBezierPoint (i / 99) points], so
    element 0 is the value at 0 and element 99 the value at 1. *)
Theorem curvePoints_samples (depth : nat) (controlPoints : list Point) :
  (controlPoints = [] -> curvePoints depth controlPoints = Some []) /\
  (controlPoints <> [] -> (List.length controlPoints - 1 <= depth)%nat ->
   exists samples,
     curvePoints depth controlPoints = Some samples /\
     List.length samples = 100%nat /\
     (forall i, (i < 100)%nat ->
        nth_error samples i
          = calculateBezierPoint depth (of_nat i / 99) controlPoints /\
        nth_error samples i <> None) /\
     nth_error samples 0 = calculateBezierPoint depth 0 controlPoints /\
     nth_error samples 99 = calculateBezierPoint depth 1 controlPoints).
Proof.
  split; [intros ->; reflexivity|].
  intros Hne Hdepth.
  destruct controlPoints as [|first rest]; [congruence|].
  set (controlPoints := first :: rest) in *.
  set (f := fun i : nat =>
              calculateBezierPoint depth (of_nat i / 99) controlPoints).
  assert (Hsome : forall i, exists p, f i = Some p).
  { intros i. unfold f.
    destruct (calculateBezierPoint_level (List.length rest) depth
                (of_nat i / 99) controlPoints) as (p & _ & Hp & _);
      [reflexivity|simpl in Hdepth; lia|eauto]. }
  destruct (sequence_map_total f (seq 0 100)) as (samples & Hseq & Hmap);
    [intros i _; apply Hsome|].
  assert (Hnth : forall i, (i < 100)%nat -> nth_error samples i = f i).
  { intros i Hi.
    assert (H := f_equal (fun l => nth_error l i) Hmap). cbn beta in H.
    rewrite !nth_error_map, nth_error_seq in H.
    apply Nat.ltb_lt in Hi. rewrite Hi in H. cbn [option_map Nat.add] in H.
    destruct (nth_error samples i); [simpl in H; congruence|discriminate]. }
  exists samples. repeat split.
  - unfold curvePoints, Array_from. rewrite ToLength_100. exact Hseq.
  - rewrite <- (length_map Some), Hmap, length_map. apply length_seq.
  - now apply Hnth.
  - rewrite (Hnth i H). destruct (Hsome i) as [p ->]. discriminate.
  - apply (Hnth 0%nat). lia.
  - apply (Hnth 99%nat). lia.
Qed.

Lemma curvePoints_samples_witness :
  exists samples,
    curvePoints 2 [mkPoint 0 0; mkPoint 1 2; mkPoint 4 4] = Some samples /\
    List.length samples = 100%nat /\
    nth_error samples 0 = Some (mkPoint 0 0) /\
    nth_error samples 99 = Some (mkPoint 4 4).
Proof.
  destruct (curvePoints_samples 2 [mkPoint 0 0; mkPoint 1 2; mkPoint 4 4])
    as [_ H].
  destruct H as (samples & H1 & H2 & _ & H3 & H4); [discriminate|simpl; lia|].
  exists samples. split; [exact H1|]. split; [exact H2|].
  split; [exact H3|exact H4].
Defined.

(** ** End points of the curve *)

Lemma closePoint_refl (p : Point) : finitePoint p -> closePoint p p.
Proof. intros [Hx Hy]. split; now apply Binary64.sameReal_refl. Qed.

Lemma closePoint_same (p q : Point) : closePoint p q -> samePoint p q.
Proof. intros [[_ Hx] [_ Hy]]. now split. Qed.

(** At [t = 0] a round of interpolation keeps every point but the last. *)
Lemma newPoints_at_0 (l l0 : list Point) :
  Forall2 closePoint l l0 -> Forall2 closePoint (newPoints 0 l) (removelast l0).
Proof.
  induction 1 as [|p p0 l l0 Hp Hrest IH]; [constructor|].
  destruct Hrest as [|q q0 l l0 Hq Hrest]; [constructor|].
  cbn [newPoints removelast]. constructor; [|exact IH].
  destruct Hp as [Hpx Hpy], Hq as [[Hqx _] [Hqy _]].
  split; cbn [x y]; now apply Binary64.lerp_at_0.
Qed.

(** At [t = 1] a round of interpolation keeps every point but the first. *)
Lemma newPoints_at_1 (l l0 : list Point) :
  Forall2 closePoint l l0 -> Forall2 closePoint (newPoints 1 l) (tl l0).
Proof.
  induction 1 as [|p p0 l l0 Hp Hrest IH]; [constructor|].
  destruct Hrest as [|q q0 l l0 Hq Hrest]; [constructor|].
  cbn [newPoints tl] in *. constructor; [|exact IH].
  destruct Hp as [[Hpx _] [Hpy _]], Hq as [Hqx Hqy].
  split; cbn [x y]; now apply Binary64.lerp_at_1.
Qed.

Lemma level_at_0 (n : nat) :
  forall (l l0 : list Point) (first : Point),
    List.length l = S n -> Forall2 closePoint l l0 -> hd_error l0 = Some first ->
    exists p, level n 0 l = [p] /\ closePoint p first.
Proof.
  induction n as [|n IH]; intros l l0 first Hlen Hall Hhd.
  - destruct Hall as [|p p0 l l0 Hp Hrest]; [discriminate|].
    destruct Hrest; [|discriminate].
    injection Hhd as <-. exists p. split; [reflexivity|exact Hp].
  - rewrite level_shift.
    apply (IH (newPoints 0 l) (removelast l0));
      [rewrite newPoints_length, Hlen; reflexivity|now apply newPoints_at_0|].
    destruct Hall as [|p p0 l l0 Hp Hrest]; [discriminate|].
    destruct Hrest; [discriminate|exact Hhd].
Qed.

Lemma level_at_1 (n : nat) :
  forall (l l0 : list Point) (d : Point),
    List.length l = S n -> Forall2 closePoint l l0 ->
    exists p, level n 1 l = [p] /\ closePoint p (last l0 d).
Proof.
  induction n as [|n IH]; intros l l0 d Hlen Hall.
  - destruct Hall as [|p p0 l l0 Hp Hrest]; [discriminate|].
    destruct Hrest; [|discriminate].
    exists p. split; [reflexivity|exact Hp].
  - rewrite level_shift.
    destruct (IH (newPoints 1 l) (tl l0) d) as (p & Hl & Hp);
      [rewrite newPoints_length, Hlen; reflexivity|now apply newPoints_at_1|].
    exists p. split; [exact Hl|].
    destruct Hall as [|q q0 l l0 Hq Hrest]; [discriminate|].
    destruct Hrest; [discriminate|exact Hp].
Qed.

(** C4. For every list of at least one point (with real coordinates),
    [calculateBezierPoint] at 0 returns the first control point and at 1 the
    last one. *)
Theorem calculateBezierPoint_endpoints
  (depth : nat) (first : Point) (rest : list Point) :
  Forall finitePoint (first :: rest) ->
  (List.length rest <= depth)%nat ->
  (exists p, calculateBezierPoint depth 0 (first :: rest) = Some p /\
             samePoint p first) /\
  (exists p, calculateBezierPoint depth 1 (first :: rest) = Some p /\
             samePoint p (last (first :: rest) first)).
Proof.
  intros Hfinite Hdepth.
  assert (Hall : Forall2 closePoint (first :: rest) (first :: rest)).
  { clear Hdepth. induction Hfinite; constructor; auto using closePoint_refl. }
  split.
  - destruct (calculateBezierPoint_level (List.length rest) depth 0 (first :: rest))
      as (p & Hl & Hp & _); [reflexivity|exact Hdepth|].
    destruct (level_at_0 (List.length rest) (first :: rest) (first :: rest) first)
      as (p' & Hl' & Hclose); [reflexivity|exact Hall|reflexivity|].
    exists p. split; [exact Hp|].
    apply closePoint_same. congruence.
  - destruct (calculateBezierPoint_level (List.length rest) depth 1 (first :: rest))
      as (p & Hl & Hp & _); [reflexivity|exact Hdepth|].
    destruct (level_at_1 (List.length rest) (first :: rest) (first :: rest) first)
      as (p' & Hl' & Hclose); [reflexivity|exact Hall|].
    exists p. split; [exact Hp|].
    apply closePoint_same. congruence.
Qed.

Lemma calculateBezierPoint_endpoints_witness :
  (exists p,
     calculateBezierPoint 2 0 [mkPoint 50 200; mkPoint 300 250; mkPoint 750 200]
       = Some p /\ samePoint p (mkPoint 50 200)) /\
  (exists p,
     calculateBezierPoint 2 1 [mkPoint 50 200; mkPoint 300 250; mkPoint 750 200]
       = Some p /\ samePoint p (mkPoint 750 200)).
Proof.
  apply (calculateBezierPoint_endpoints 2 (mkPoint 50 200)
           [mkPoint 300 250; mkPoint 750 200]).
  - repeat constructor.
  - simpl. lia.
Defined.

(** The coordinates have to be real numbers: next to an infinite coordinate
    the product [0 * Infinity] is NaN, and the first point is not returned. *)
Lemma calculateBezierPoint_at_0_infinite_neighbour :
  calculateBezierPoint 1 0 [mkPoint 0 0; mkPoint infinity 0]
  = Some (mkPoint nan 0).
Proof. vm_compute. reflexivity. Qed.

(** ** Dragging a control point *)

Lemma mapi_from_length {A B : Type} (f : A -> nat -> B) (l : list A) :
  forall i, List.length (mapi_from i f l) = List.length l.
Proof. induction l as [|a l IH]; intros i; simpl; auto. Qed.

Lemma mapi_from_nth {A B : Type} (f : A -> nat -> B) (l : list A) :
  forall i j, nth_error (mapi_from i f l) j
              = option_map (fun a => f a (i + j)%nat) (nth_error l j).
Proof.
  induction l as [|a l IH]; intros i [|j]; simpl; try reflexivity.
  - now rewrite Nat.add_0_r.
  - rewrite IH. now rewrite Nat.add_succ_r.
Qed.

Lemma mapi_from_out_of_range {A : Type} (moved : A) (dragging : nat) (l : list A) :
  forall i, (i + List.length l <= dragging)%nat ->
    mapi_from i (fun p k => if (k =? dragging)%nat then moved else p) l = l.
Proof.
  induction l as [|a l IH]; intros i Hi; simpl in *; [reflexivity|].
  replace (i =? dragging)%nat with false by (symmetry; apply Nat.eqb_neq; lia).
  f_equal. apply IH. lia.
Qed.

(** C7. With no drag active (or no surface transform) [handleMouseMove]
    changes nothing.  With point [i] being dragged to [p]: the list keeps its
    length; every index other than [i] keeps its point; if [i] is out of
    range the list is unchanged; otherwise index [i] holds [p] with [x]
    clamped into [0, 800] and [y] into [0, 400]. *)
Theorem handleMouseMove_moves_one_point (s : State) (svgPoint : option Point) :
  (draggingIndex s = None -> handleMouseMove svgPoint s = s) /\
  (svgPoint = None -> handleMouseMove svgPoint s = s) /\
  (forall i p, draggingIndex s = Some i -> svgPoint = Some p ->
     List.length (points (handleMouseMove svgPoint s)) = List.length (points s) /\
     (forall j, j <> i ->
        nth_error (points (handleMouseMove svgPoint s)) j = nth_error (points s) j) /\
     ((List.length (points s) <= i)%nat ->
        points (handleMouseMove svgPoint s) = points s) /\
     ((i < List.length (points s))%nat ->
        nth_error (points (handleMouseMove svgPoint s)) i = Some (clampToCanvas p)) /\
     (is_nan (x p) = false -> clampedTo 0 800 (x p) (x (clampToCanvas p))) /\
     (is_nan (y p) = false -> clampedTo 0 400 (y p) (y (clampToCanvas p)))).
Proof.
  unfold handleMouseMove. split; [|split].
  - now intros ->.
  - intros ->. now destruct (draggingIndex s).
  - intros i p -> ->. cbn [setPoints points]. unfold Array_map.
    split; [apply mapi_from_length|].
    split.
    { intros j Hj. rewrite mapi_from_nth. cbn [Nat.add].
      apply Nat.eqb_neq in Hj. rewrite Hj. now destruct (nth_error (points s) j). }
    split; [intros Hout; now apply mapi_from_out_of_range|].
    split.
    { intros Hin. rewrite mapi_from_nth. cbn [Nat.add]. rewrite Nat.eqb_refl.
      destruct (nth_error (points s) i) eqn:E; [reflexivity|].
      apply nth_error_None in E. lia. }
    split; intros Hv; apply (clamp_clampedTo); clamp_side.
Qed.

Lemma handleMouseMove_moves_one_point_witness :
  nth_error
    (points (handleMouseMove (Some (mkPoint 900 (-20)))
       {| t := 0; order := 2; draggingIndex := Some 1%nat; pointsRef := 1;
          points := [mkPoint 50 200; mkPoint 400 50; mkPoint 750 200] |})) 1
  = Some (mkPoint 800 0).
Proof.
  destruct (handleMouseMove_moves_one_point
              {| t := 0; order := 2; draggingIndex := Some 1%nat; pointsRef := 1;
                 points := [mkPoint 50 200; mkPoint 400 50; mkPoint 750 200] |}
              (Some (mkPoint 900 (-20)))) as (_ & _ & H).
  destruct (H 1%nat (mkPoint 900 (-20)) eq_refl eq_refl) as (_ & _ & _ & Hmoved & _).
  apply Hmoved. simpl. lia.
Defined.

(** ** The order of the curve *)

Lemma safeOrder_clamp (o : number) : safeOrder o = clamp 1 100 o.
Proof. reflexivity. Qed.

Lemma orders_1_to_100_computed :
  forallb (fun k => PrimFloat.Leibniz.eqb (safeOrder (Z2number (Z.of_nat k)))
                                          (Z2number (Z.of_nat k))
                    && PrimFloat.Leibniz.eqb (Z2number (Z.of_nat k)) (of_nat k)
                    && Nat.eqb (ToLength (Z2number (Z.of_nat k) + 1)) (k + 1)%nat)
          (seq 1 100) = true.
Proof. vm_compute. reflexivity. Qed.

Lemma orders_1_to_100 (n : Z) :
  (1 <= n <= 100)%Z ->
  safeOrder (Z2number n) = Z2number n /\
  Z2number n = of_nat (Z.to_nat n) /\
  ToLength (Z2number n + 1) = (Z.to_nat n + 1)%nat.
Proof.
  intros Hn. pose proof orders_1_to_100_computed as H.
  rewrite forallb_forall in H. specialize (H (Z.to_nat n)).
  rewrite in_seq, Z2Nat.id in H by lia.
  destruct (andb_prop _ _ (H ltac:(lia))) as [H12 H3].
  destruct (andb_prop _ _ H12) as [H1 H2].
  split; [now apply FloatAxioms.Leibniz.eqb_spec|].
  split; [now apply FloatAxioms.Leibniz.eqb_spec|now apply Nat.eqb_eq].
Qed.

Lemma Z2number_number (z : Z) : is_nan (Z2number z) = false.
Proof.
  rewrite Binary64.is_nan_spec, Binary64.Z2number_spec.
  destruct (Binary64.binary_normalize_integer z)
    as [[-> _]|[[-> _]|(m3 & e3 & -> & _)]]; reflexivity.
Qed.

(** What [parseInt] can return: NaN, a negative zero, or the number nearest
    to an integer. *)
Lemma parseInt_cases (value : string) :
  parseInt value = nan \/ parseInt value = neg_zero \/
  exists z, parseInt value = Z2number z.
Proof.
  unfold parseInt.
  destruct (match trimStart value with
            | String "-"%char rest => (true, rest)
            | String "+"%char rest => (false, rest)
            | _ => (false, trimStart value)
            end) as [negative unsigned].
  destruct (match unsigned with
            | String "0"%char (String "x"%char rest) => (16%Z, rest)
            | String "0"%char (String "X"%char rest) => (16%Z, rest)
            | _ => (10%Z, unsigned)
            end) as [R digits].
  destruct (parseDigits R digits None) as [mathInt|]; [|now left].
  destruct (mathInt =? 0)%Z; [destruct negative|]; right.
  - now left.
  - right. now exists 0%Z.
  - right. eauto.
Qed.

Lemma orderEffect_points (Math_sin : number -> number) (s : State) :
  lt 0 (ToLength (safeOrder (order s) + 1)) ->
  points (orderEffect Math_sin s)
  = map (layoutPoint Math_sin (safeOrder (order s)))
        (seq 0 (ToLength (safeOrder (order s) + 1))).
Proof.
  intros Hpos. unfold orderEffect, orderLayout, Array_from.
  fold (safeOrder (order s)).
  rewrite length_map, length_seq.
  apply Nat.ltb_lt in Hpos. now rewrite Hpos.
Qed.

Lemma orderLayout_length (Math_sin : number -> number) (o : number) :
  is_nan o = false ->
  (2 <= ToLength (safeOrder o + 1)%float <= 101)%nat /\
  (2 <= List.length (orderLayout Math_sin o) <= 101)%nat.
Proof.
  intros Hnum.
  assert (H : (2 <= ToLength (safeOrder o + 1)%float <= 101)%nat).
  { rewrite safeOrder_clamp.
    destruct (clamp_range 1 100) with (v := o) as [Hlo Hhi]; try clamp_side.
    now apply Binary64.ToLength_successor. }
  split; [exact H|].
  unfold orderLayout, Array_from. fold (safeOrder o).
  now rewrite length_map, length_seq.
Qed.

(** The clamp on an integer order, and the length [Array.from] reads from it. *)
Lemma safeOrder_integer (z : Z) :
  safeOrder (Z2number z) = Z2number (Z.max 1 (Z.min 100 z)) /\
  ToLength (Z2number (Z.max 1 (Z.min 100 z)) + 1)
  = (Z.to_nat (Z.max 1 (Z.min 100 z)) + 1)%nat.
Proof.
  destruct (Z.le_gt_cases z 0) as [Hlow|Hpos];
    [|destruct (Z.le_gt_cases z 100) as [Hmid|Hhigh]].
  - replace (Z.max 1 (Z.min 100 z)) with 1%Z by lia.
    split; [|reflexivity].
    rewrite safeOrder_clamp. apply clamp_below; try clamp_side.
    now apply Binary64.Z2number_below_1.
  - replace (Z.max 1 (Z.min 100 z)) with z by lia.
    destruct (orders_1_to_100 z) as (H1 & _ & H3); [lia|]. now split.
  - replace (Z.max 1 (Z.min 100 z)) with 100%Z by lia.
    split; [|reflexivity].
    rewrite safeOrder_clamp. apply clamp_above; try clamp_side.
    now apply Binary64.Z2number_above_100.
Qed.

(** C6. For every integer [newOrder] (as the number that holds it), the
    effect run after [setOrder newOrder] clamps it into [1, 100] and replaces
    the whole list of control points, whatever it was, by exactly
    [clamped + 1] points, point [i] being
    [(50 + i * 700 / clamped, 200 - sin (i * PI / clamped) * 150)]: an
    integer from 1 to 100 is kept, one below 1 becomes 1 and one above 100
    becomes 100.  This is the state an entry of the order field leads to
    whenever it changes the order. *)
Theorem setOrder_layout
  (Math_sin : number -> number) (newOrder : Z) (s : State) :
  let clamped := Z.max 1 (Z.min 100 newOrder) in
  let s' := orderEffect Math_sin (setOrder (Z2number newOrder) s) in
  safeOrder (Z2number newOrder) = Z2number clamped /\
  points s'
  = map (fun i =>
           {| x := 50 + (of_nat i * 700) / Z2number clamped;
              y := 200 - Math_sin ((of_nat i * Math_PI) / Z2number clamped) * 150 |})
        (seq 0 (Z.to_nat clamped + 1)) /\
  List.length (points s') = (Z.to_nat clamped + 1)%nat /\
  (forall value,
     parseInt value = Z2number newOrder ->
     Object_is (order s) (Z2number newOrder) = false ->
     handle Math_sin (OrderChange value) s = s').
Proof.
  intros clamped s'.
  pose proof (safeOrder_integer newOrder) as Hc. fold clamped in Hc.
  destruct Hc as [Hc Hcount].
  assert (Hpoints : points s'
                    = map (layoutPoint Math_sin (Z2number clamped))
                          (seq 0 (Z.to_nat clamped + 1))).
  { subst s'. rewrite orderEffect_points; cbn [order setOrder]; rewrite Hc, Hcount;
      [reflexivity|lia]. }
  split; [exact Hc|]. split; [exact Hpoints|].
  split; [now rewrite Hpoints, length_map, length_seq|].
  intros value Hvalue Hchanged. cbn [handle order setOrder].
  now rewrite Hvalue, Hchanged.
Qed.

(** Order 3 gives 4 control points; a negative order is clamped to 1 and a
    very large one to 100. *)
Lemma setOrder_layout_witness :
  safeOrder 3 = 3 /\
  List.length (points (orderEffect sinSeries (setOrder 3 initialState))) = 4%nat /\
  safeOrder (Z2number (-7)) = 1 /\
  safeOrder (Z2number 12345678901234567890123) = 100.
Proof.
  destruct (setOrder_layout sinSeries 3 initialState) as (H1 & _ & H2 & _).
  destruct (setOrder_layout sinSeries (-7) initialState) as (H3 & _).
  destruct (setOrder_layout sinSeries 12345678901234567890123 initialState)
    as (H4 & _).
  split; [exact H1|]. split; [exact H2|]. split; [exact H3|exact H4].
Defined.

Lemma orderLayout_nan (Math_sin : number -> number) (o : number) :
  is_nan o = true -> is_nan (safeOrder o) = true /\ orderLayout Math_sin o = [].
Proof.
  intros Hnan.
  assert (Hc : safeOrder o = nan) by (rewrite safeOrder_clamp; now apply clamp_nan).
  split; [now rewrite Hc|].
  unfold orderLayout. fold (safeOrder o). now rewrite Hc.
Qed.


(** What an entry in the order field does to the control points: nothing,
    or their replacement by a non-empty layout. *)
Lemma orderChange_points
  (Math_sin : number -> number) (value : string) (s : State) :
  points (handle Math_sin (OrderChange value) s) = points s \/
  (points (handle Math_sin (OrderChange value) s)
     = orderLayout Math_sin (parseInt value) /\
   lt 0 (List.length (orderLayout Math_sin (parseInt value)))).
Proof.
  cbn [handle order setOrder].
  destruct (Object_is (order s) (parseInt value)); [now left|].
  unfold orderEffect. cbn [order setOrder].
  destruct (Nat.ltb_spec 0 (List.length (orderLayout Math_sin (parseInt value))));
    [right; split; [reflexivity|assumption]|now left].
Qed.

Lemma handle_points_length
  (Math_sin : number -> number) (e : Event) (s : State) :
  (2 <= List.length (points s) <= 101)%nat ->
  (2 <= List.length (points (handle Math_sin e s)) <= 101)%nat.
Proof.
  intros Hs. destruct e as [newT|value|index|svgPoint| |]; try exact Hs.
  - destruct (orderChange_points Math_sin value s) as [->|[-> Hpos]]; [exact Hs|].
    destruct (is_nan (parseInt value)) eqn:Hnan.
    + rewrite (proj2 (orderLayout_nan Math_sin _ Hnan)) in Hpos. simpl in Hpos. lia.
    + apply orderLayout_length, Hnan.
  - cbn [handle]. unfold handleMouseMove.
    destruct (draggingIndex s) as [dragging|]; [|exact Hs].
    destruct svgPoint as [p|]; [|exact Hs].
    cbn [setPoints points]. unfold Array_map. now rewrite mapi_from_length.
Qed.

Lemma mounted_points_length (Math_sin : number -> number) :
  List.length (points (mounted Math_sin)) = 4%nat.
Proof.
  unfold mounted. rewrite (orderEffect_points Math_sin); [|vm_compute; lia].
  now rewrite length_map, length_seq.
Qed.

Lemma reachable_points_length (Math_sin : number -> number) (s : State) :
  reachable Math_sin s -> (2 <= List.length (points s) <= 101)%nat.
Proof.
  induction 1 as [|s e _ IH].
  - rewrite mounted_points_length. lia.
  - now apply handle_points_length.
Qed.

(** C9, as the code has it.  An entry in the order field becomes the order
    [parseInt] reads from it: NaN, or a number (an integer, or a negative
    zero).  A number is clamped into [1, 100] before the layout is computed,
    which then has between 2 and 101 points ([clamped + 1] for an integer).
    A NaN order (an entry with no leading integer) is not clamped: the clamp
    returns NaN, the layout computed from it is empty, and the effect
    discards it, so the control points stay as they were.  Either way, in
    every state the component reaches, the entry leaves between 2 and 101
    control points. *)
Theorem orderChange_clamps_or_ignores
  (Math_sin : number -> number) (value : string) (s : State) :
  let entered := parseInt value in
  let s' := handle Math_sin (OrderChange value) s in
  order s' = entered /\
  (entered = nan \/ entered = neg_zero \/ exists z, entered = Z2number z) /\
  (points s' = points s \/ points s' = orderLayout Math_sin entered) /\
  (is_nan entered = true ->
     is_nan (safeOrder entered) = true /\
     orderLayout Math_sin entered = [] /\
     points s' = points s) /\
  (is_nan entered = false ->
     clampedTo 1 100 entered (safeOrder entered) /\
     (2 <= List.length (orderLayout Math_sin entered) <= 101)%nat) /\
  (forall z, entered = Z2number z ->
     safeOrder entered = Z2number (Z.max 1 (Z.min 100 z)) /\
     List.length (orderLayout Math_sin entered)
     = (Z.to_nat (Z.max 1 (Z.min 100 z)) + 1)%nat) /\
  (reachable Math_sin s -> (2 <= List.length (points s') <= 101)%nat).
Proof.
  intros entered s'.
  pose proof (orderChange_points Math_sin value s) as Hstep.
  fold entered s' in Hstep.
  split.
  { subst s'. cbn [handle]. cbn [order setOrder].
    destruct (Object_is (order s) (parseInt value)); [reflexivity|].
    unfold orderEffect. cbn [order setOrder].
    now destruct (0 <? List.length (orderLayout Math_sin (parseInt value)))%nat. }
  split; [apply parseInt_cases|].
  split; [destruct Hstep as [H|[H _]]; auto|].
  split.
  { intros H. destruct (orderLayout_nan Math_sin entered H) as [H1 H2].
    split; [exact H1|]. split; [exact H2|].
    destruct Hstep as [Hsame|[_ Hpos]]; [exact Hsame|].
    rewrite H2 in Hpos. simpl in Hpos. lia. }
  split.
  { intros H. split; [rewrite safeOrder_clamp; apply clamp_clampedTo; clamp_side|].
    apply orderLayout_length, H. }
  split.
  { intros z ->. destruct (safeOrder_integer z) as [Hc Hcount].
    split; [exact Hc|].
    unfold orderLayout, Array_from. fold (safeOrder (Z2number z)).
    now rewrite length_map, length_seq, Hc. }
  intros Hs. apply handle_points_length.
  now apply (reachable_points_length Math_sin).
Qed.

Lemma orderChange_clamps_or_ignores_witness :
  points (handle sinSeries (OrderChange "") (mounted sinSeries))
    = points (mounted sinSeries) /\
  List.length (orderLayout sinSeries (parseInt "250")) = 101%nat /\
  List.length (orderLayout sinSeries (parseInt "-4")) = 2%nat /\
  List.length (orderLayout sinSeries (parseInt "7")) = 8%nat /\
  (2 <= List.length (points (handle sinSeries (OrderChange "12abc")
                               (mounted sinSeries))) <= 101)%nat.
Proof.
  destruct (orderChange_clamps_or_ignores sinSeries "" (mounted sinSeries))
    as (_ & _ & _ & Hnan & _).
  destruct (orderChange_clamps_or_ignores sinSeries "250" (mounted sinSeries))
    as (_ & _ & _ & _ & _ & Hhigh & _).
  destruct (orderChange_clamps_or_ignores sinSeries "-4" (mounted sinSeries))
    as (_ & _ & _ & _ & _ & Hlow & _).
  destruct (orderChange_clamps_or_ignores sinSeries "7" (mounted sinSeries))
    as (_ & _ & _ & _ & _ & Hmid & _).
  destruct (orderChange_clamps_or_ignores sinSeries "12abc" (mounted sinSeries))
    as (_ & _ & _ & _ & _ & _ & Hreach).
  split; [exact (proj2 (proj2 (Hnan eq_refl)))|].
  split; [exact (proj2 (Hhigh 250%Z eq_refl))|].
  split; [exact (proj2 (Hlow (-4)%Z eq_refl))|].
  split; [exact (proj2 (Hmid 7%Z eq_refl))|].
  exact (Hreach (reachable_mounted sinSeries)).
Defined.

(** C9 fails for an entry that is not a number: clearing the field makes the
    order NaN, and the clamp leaves it outside [1, 100]. *)
Lemma orderChange_nan_is_not_clamped :
  ~ ((1 <=? safeOrder (parseInt "")) = true /\
     (safeOrder (parseInt "") <=? 100) = true).
Proof. vm_compute. intros [H _]. discriminate H. Qed.

(** ** Memoisation of the sampled curve *)

Lemma useMemo_deps {A : Type} (factory : unit -> A) (newDeps : nat)
  (cell : option (Memo nat A)) :
  deps (useMemo Nat.eqb factory newDeps cell) = newDeps.
Proof.
  destruct cell as [m|]; [|reflexivity]. cbn [useMemo].
  destruct (Nat.eqb_spec (deps m) newDeps); [assumption|reflexivity].
Qed.

Lemma useMemo_hit {A : Type} (factory : unit -> A) (m : Memo nat A) :
  useMemo Nat.eqb factory (deps m) (Some m) = m.
Proof. cbn [useMemo]. now rewrite Nat.eqb_refl. Qed.

(** C8. The sampled curve is computed from the control points alone.  Two
    states with the same control points have the same curve whatever their
    [t]; and after a render, a change of [t] to any [t1] or [t2] re-renders
    with the very same memo cell: the same value, and no further run of the
    sampling. *)
Theorem curvePoints_independent_of_t
  (depth : nat) (s : State) (previous : option Rendered) (t1 t2 : number) :
  let shown := render depth s previous in
  let r1 := render depth (setT t1 s) (Some shown) in
  let r2 := render depth (setT t2 s) (Some shown) in
  curvePoints depth (points (setT t1 s)) = curvePoints depth (points (setT t2 s)) /\
  curveMemo r1 = curveMemo shown /\
  curveMemo r2 = curveMemo shown /\
  value (curveMemo r1) = value (curveMemo r2) /\
  runs (curveMemo r1) = runs (curveMemo shown) /\
  runs (curveMemo r2) = runs (curveMemo shown) /\
  (previous = None -> value (curveMemo r1) = curvePoints depth (points s)).
Proof.
  intros shown r1 r2.
  assert (Hdeps : deps (curveMemo shown) = pointsRef s)
    by apply useMemo_deps.
  assert (H1 : curveMemo r1 = curveMemo shown).
  { subst r1. cbn [render curveMemo option_map setT pointsRef points].
    rewrite <- Hdeps. apply useMemo_hit. }
  assert (H2 : curveMemo r2 = curveMemo shown).
  { subst r2. cbn [render curveMemo option_map setT pointsRef points].
    rewrite <- Hdeps. apply useMemo_hit. }
  split; [reflexivity|]. split; [exact H1|]. split; [exact H2|].
  rewrite H1, H2. repeat split.
  intros ->. reflexivity.
Qed.

Lemma curvePoints_independent_of_t_witness :
  value (curveMemo (render 3 (setT 0.25 (mounted sinSeries))
                      (Some (render 3 (mounted sinSeries) None))))
  = curvePoints 3 (points (mounted sinSeries)) /\
  runs (curveMemo (render 3 (setT 0.25 (mounted sinSeries))
                     (Some (render 3 (mounted sinSeries) None))))
  = 1%nat.
Proof.
  destruct (curvePoints_independent_of_t 3 (mounted sinSeries) None 0.25 0.75)
    as (_ & _ & _ & _ & Hruns & _ & Hvalue).
  split; [exact (Hvalue eq_refl)|exact Hruns].
Defined.

(** X15. The pyramid, unlike the curve, follows the slider: a render after
    [t] has changed to a different number runs the [intermediatePoints]
    factory once more, and the cell then holds the pyramid of the same
    control points at the new [t]. *)
Lemma intermediatePoints_follow_t
  (depth : nat) (s : State) (previous : option Rendered) (t1 : number) :
  Object_is (t s) t1 = false ->
  let shown := render depth s previous in
  let r1 := render depth (setT t1 s) (Some shown) in
  value (pyramidMemo r1) = intermediatePoints t1 (points s) /\
  runs (pyramidMemo r1) = S (runs (pyramidMemo shown)).
Proof.
  intros Hdiff shown r1.
  assert (Hdeps : samePointsAndT (deps (pyramidMemo shown)) (pointsRef s, t1) = false).
  { subst shown. cbn [render pyramidMemo].
    destruct (option_map pyramidMemo previous) as [m|]; cbn [useMemo].
    - destruct (samePointsAndT (deps m) (pointsRef s, t s)) eqn:E; cbn [deps].
      + unfold samePointsAndT in *. cbn [fst snd] in *.
        apply andb_prop in E. destruct E as [E1 E2].
        apply FloatAxioms.Leibniz.eqb_spec in E2. unfold Object_is in *.
        rewrite E2, Hdiff. apply andb_false_r.
      + unfold samePointsAndT. cbn [fst snd]. now rewrite Hdiff, andb_false_r.
    - cbn [deps]. unfold samePointsAndT. cbn [fst snd]. now rewrite Hdiff, andb_false_r. }
  subst r1. cbn [render pyramidMemo option_map setT pointsRef points t useMemo].
  rewrite Hdeps. split; reflexivity.
Qed.

Lemma intermediatePoints_follow_t_witness :
  let shown := render 3 (mounted sinSeries) None in
  let r1 := render 3 (setT 0.5 (mounted sinSeries)) (Some shown) in
  value (pyramidMemo r1) = intermediatePoints 0.5 (points (mounted sinSeries)) /\
  runs (pyramidMemo r1) = 2%nat.
Proof.
  apply (intermediatePoints_follow_t 3 (mounted sinSeries) None 0.5).
  reflexivity.
Defined.

(** ** A session

    The scenario of the specification: the component mounts with order 3 and
    its 4 control points, at x = 50, 50 + 700/3, 50 + 1400/3 and 750; at
    t = 0.5 the pyramid has levels of 4, 3, 2 and 1 points; dragging point 1
    to (300, 250) changes that point only. *)
Example session_order_3 :
  map x (points (mounted sinSeries)) = [50; 50 + 700 / 3; 50 + 1400 / 3; 750] /\
  map (@List.length Point)
      (intermediatePoints 0.5 (points (mounted sinSeries))) = [4; 3; 2; 1]%nat /\
  points (handle sinSeries (MouseMove (Some (mkPoint 300 250)))
            (handle sinSeries (MouseDown 1) (mounted sinSeries)))
  = [nth 0 (points (mounted sinSeries)) (mkPoint 0 0);
     mkPoint 300 250;
     nth 2 (points (mounted sinSeries)) (mkPoint 0 0);
     nth 3 (points (mounted sinSeries)) (mkPoint 0 0)].
Proof. vm_compute. repeat split. Qed.

(** ** What an event may change *)

Lemma Object_is_refl (v : number) : Object_is v v = true.
Proof. now apply FloatAxioms.Leibniz.eqb_spec. Qed.

Lemma orderEffect_frame (Math_sin : number -> number) (s : State) :
  t (orderEffect Math_sin s) = t s /\
  order (orderEffect Math_sin s) = order s /\
  draggingIndex (orderEffect Math_sin s) = draggingIndex s.
Proof.
  unfold orderEffect.
  destruct (0 <? List.length (orderLayout Math_sin (order s)))%nat;
    repeat split.
Qed.

(** X1. Each piece of state has its own writers.  [t] changes only on a
    slider event, [order] only on an entry in the order field, the dragged
    index only on mouse down, up or leave, and the control points only on an
    order entry or on a move made while a point within range is dragged. *)
Theorem handle_writes_one_field
  (Math_sin : number -> number) (e : Event) (s : State) :
  let s' := handle Math_sin e s in
  (t s' <> t s -> exists newT, e = SliderChange newT) /\
  (order s' <> order s -> exists value, e = OrderChange value) /\
  (draggingIndex s' <> draggingIndex s ->
     e = MouseUp \/ e = MouseLeave \/ exists index, e = MouseDown index) /\
  (points s' <> points s ->
     (exists value, e = OrderChange value) \/
     (exists p dragging,
        e = MouseMove (Some p) /\ draggingIndex s = Some dragging /\
        (dragging < List.length (points s))%nat)).
Proof.
  destruct e as [newT|value|index|svgPoint| |]; cbn zeta;
    (split; [|split; [|split]]); intros Hdiff;
    try (exfalso; apply Hdiff; reflexivity); eauto.
  - exfalso. apply Hdiff. cbn [handle].
    destruct (Object_is (order s) (order (setOrder (parseInt value) s)));
      [reflexivity|]. now rewrite (proj1 (orderEffect_frame Math_sin _)).
  - exfalso. apply Hdiff. cbn [handle].
    destruct (Object_is (order s) (order (setOrder (parseInt value) s)));
      [reflexivity|].
    now rewrite (proj2 (proj2 (orderEffect_frame Math_sin _))).
  - exfalso. apply Hdiff. cbn [handle]. unfold handleMouseMove.
    destruct (draggingIndex s), svgPoint; reflexivity.
  - exfalso. apply Hdiff. cbn [handle]. unfold handleMouseMove.
    destruct (draggingIndex s), svgPoint; reflexivity.
  - exfalso. apply Hdiff. cbn [handle]. unfold handleMouseMove.
    destruct (draggingIndex s) eqn:Hdrag, svgPoint; cbn; congruence.
  - right. cbn [handle] in Hdiff. unfold handleMouseMove in Hdiff.
    destruct (draggingIndex s) as [dragging|] eqn:Hdrag; [|congruence].
    destruct svgPoint as [p|]; [|congruence].
    exists p, dragging. repeat split.
    destruct (Nat.lt_ge_cases dragging (List.length (points s))) as [Hin|Hout];
      [exact Hin|].
    exfalso. apply Hdiff. cbn [setPoints points]. unfold Array_map.
    apply mapi_from_out_of_range. simpl. exact Hout.
Qed.

(** X2. Entering the order the component already has changes nothing at
    all: the effect is keyed on [order], so the control points, dragged or
    not, stay; and entering any value a second time changes nothing more. *)
Theorem orderChange_same_order_is_idle
  (Math_sin : number -> number) (value : string) (s : State) :
  (Object_is (order s) (parseInt value) = true ->
   handle Math_sin (OrderChange value) s = s) /\
  handle Math_sin (OrderChange value) (handle Math_sin (OrderChange value) s)
  = handle Math_sin (OrderChange value) s.
Proof.
  assert (Hsame : forall s0 : State,
             Object_is (order s0) (parseInt value) = true ->
             handle Math_sin (OrderChange value) s0 = s0).
  { intros s0 H. cbn [handle order setOrder]. rewrite H.
    apply FloatAxioms.Leibniz.eqb_spec in H. rewrite <- H.
    now destruct s0. }
  split; [apply Hsame|].
  apply Hsame.
  replace (order (handle Math_sin (OrderChange value) s)) with (parseInt value);
    [apply Object_is_refl|].
  cbn [handle order setOrder].
  destruct (Object_is (order s) (parseInt value)); [reflexivity|].
  now rewrite (proj1 (proj2 (orderEffect_frame Math_sin _))).
Qed.

(** ** The control points follow the order *)

Lemma handle_points_match_order
  (Math_sin : number -> number) (e : Event) (s : State) :
  (is_nan (order s) = false ->
   List.length (points s) = ToLength (safeOrder (order s) + 1)) ->
  is_nan (order (handle Math_sin e s)) = false ->
  List.length (points (handle Math_sin e s))
  = ToLength (safeOrder (order (handle Math_sin e s)) + 1).
Proof.
  intros Hs. destruct e as [newT|value|index|svgPoint| |]; try exact Hs.
  - cbn [handle order setOrder].
    destruct (Object_is (order s) (parseInt value)) eqn:Hsame.
    + apply FloatAxioms.Leibniz.eqb_spec in Hsame. rewrite <- Hsame. exact Hs.
    + rewrite (proj1 (proj2 (orderEffect_frame Math_sin _))).
      cbn [order setOrder]. intros Hnum.
      destruct (orderLayout_length Math_sin (parseInt value) Hnum) as [Hlen _].
      rewrite (orderEffect_points Math_sin) by (cbn [order setOrder]; lia).
      cbn [order setOrder]. now rewrite length_map, length_seq.
  - cbn [handle]. unfold handleMouseMove.
    destruct (draggingIndex s) as [dragging|]; [|exact Hs].
    destruct svgPoint as [p|]; [|exact Hs].
    cbn [setPoints points order]. unfold Array_map.
    now rewrite mapi_from_length.
Qed.

Lemma reachable_points_follow_order (Math_sin : number -> number) (s : State) :
  reachable Math_sin s ->
  is_nan (order s) = false ->
  List.length (points s) = ToLength (safeOrder (order s) + 1).
Proof.
  induction 1 as [|s e _ IH].
  - intros _. rewrite mounted_points_length. vm_compute. reflexivity.
  - now apply handle_points_match_order.
Qed.



(** ** The recursion stays shallow *)

Lemma curvePoints_nth (n depth : nat) (controlPoints : list Point) :
  List.length controlPoints = S n -> (n <= depth)%nat ->
  exists samples,
    curvePoints depth controlPoints = Some samples /\
    List.length samples = 100%nat /\
    forall i, (i < 100)%nat ->
      nth_error samples i
      = calculateBezierPoint depth (of_nat i / 99) controlPoints.
Proof.
  intros Hlen Hdepth.
  set (f := fun i : nat =>
              calculateBezierPoint depth (of_nat i / 99) controlPoints).
  destruct (sequence_map_total f (seq 0 100)) as (samples & Hseq & Hmap).
  { intros i _. unfold f.
    destruct (calculateBezierPoint_level n depth (of_nat i / 99) controlPoints)
      as (p & _ & Hp & _); eauto. }
  exists samples. split; [|split].
  - unfold curvePoints, Array_from. rewrite Hlen, ToLength_100. exact Hseq.
  - rewrite <- (length_map Some), Hmap, length_map. apply length_seq.
  - intros i Hi. change (nth_error samples i = f i).
    assert (H := f_equal (fun l => nth_error l i) Hmap). cbn beta in H.
    rewrite !nth_error_map, nth_error_seq in H.
    apply Nat.ltb_lt in Hi. rewrite Hi in H. cbn [option_map Nat.add] in H.
    destruct (nth_error samples i); [cbn [option_map] in H; congruence|discriminate].
Qed.



(** X5. The sampled curve starts at the first control point and ends at
    the last one (for control points with real coordinates): sample 0 is
    taken at [0 / 99 = 0] and sample 99 at [99 / 99 = 1]. *)
Theorem curvePoints_join_the_end_points
  (depth : nat) (first : Point) (rest : list Point) :
  Forall finitePoint (first :: rest) ->
  (List.length rest <= depth)%nat ->
  exists samples start finish,
    curvePoints depth (first :: rest) = Some samples /\
    nth_error samples 0 = Some start /\ samePoint start first /\
    nth_error samples 99 = Some finish /\
    samePoint finish (last rest first).
Proof.
  intros Hfinite Hdepth.
  assert (Hall : Forall2 closePoint (first :: rest) (first :: rest)).
  { clear Hdepth. induction Hfinite; constructor; auto using closePoint_refl. }
  destruct (curvePoints_nth (List.length rest) depth (first :: rest))
    as (samples & Hcurve & _ & Hnth); [reflexivity|exact Hdepth|].
  destruct (calculateBezierPoint_level (List.length rest) depth 0 (first :: rest))
    as (p & Hl & Hp & _); [reflexivity|exact Hdepth|].
  destruct (level_at_0 (List.length rest) (first :: rest) (first :: rest) first)
    as (p' & Hl' & Hclose); [reflexivity|exact Hall|reflexivity|].
  destruct (calculateBezierPoint_level (List.length rest) depth 1 (first :: rest))
    as (q & Hm & Hq & _); [reflexivity|exact Hdepth|].
  destruct (level_at_1 (List.length rest) (first :: rest) (first :: rest) first)
    as (q' & Hm' & Hclose'); [reflexivity|exact Hall|].
  exists samples, p, q. split; [exact Hcurve|].
  split; [rewrite (Hnth 0%nat) by lia; exact Hp|].
  split; [apply closePoint_same; congruence|].
  split; [rewrite (Hnth 99%nat) by lia; exact Hq|].
  apply closePoint_same.
  replace (last rest first) with (last (first :: rest) first);
    [congruence|].
  destruct rest; reflexivity.
Qed.

Lemma curvePoints_join_the_end_points_witness :
  exists samples start finish,
    curvePoints 2 [mkPoint 0 0; mkPoint 1 2; mkPoint 4 4] = Some samples /\
    nth_error samples 0 = Some start /\ samePoint start (mkPoint 0 0) /\
    nth_error samples 99 = Some finish /\ samePoint finish (mkPoint 4 4).
Proof.
  apply (curvePoints_join_the_end_points 2 (mkPoint 0 0) [mkPoint 1 2; mkPoint 4 4]).
  - repeat constructor.
  - simpl. lia.
Defined.

(** ** A drag from press to release *)

Lemma mapi_from_overwrite {A : Type} (first second : A) (dragging : nat) (l : list A) :
  forall i,
    mapi_from i (fun p k => if (k =? dragging)%nat then second else p)
      (mapi_from i (fun p k => if (k =? dragging)%nat then first else p) l)
    = mapi_from i (fun p k => if (k =? dragging)%nat then second else p) l.
Proof.
  induction l as [|a l IH]; intros i; cbn [mapi_from]; [reflexivity|].
  rewrite IH. now destruct (i =? dragging)%nat.
Qed.

Lemma handleAll_app (Math_sin : number -> number) (before after : list Event)
  (s : State) :
  handleAll Math_sin (before ++ after) s
  = handleAll Math_sin after (handleAll Math_sin before s).
Proof. apply fold_left_app. Qed.

Lemma handleAll_cons (Math_sin : number -> number) (e : Event)
  (events : list Event) (s : State) :
  handleAll Math_sin (e :: events) s
  = handleAll Math_sin events (handle Math_sin e s).
Proof. reflexivity. Qed.

(** While a point is dragged, a trail of moves keeps the drag, [t] and the
    order, and leaves a list that the next move overwrites as it would have
    overwritten the list the trail started from. *)
Lemma handleAll_moves (Math_sin : number -> number) (dragging : nat)
  (trail : list Point) :
  forall s : State,
    draggingIndex s = Some dragging ->
    let s' := handleAll Math_sin (map (fun p => MouseMove (Some p)) trail) s in
    draggingIndex s' = Some dragging /\ t s' = t s /\ order s' = order s /\
    forall target : Point,
      Array_map (fun p k => if (k =? dragging)%nat then target else p) (points s')
      = Array_map (fun p k => if (k =? dragging)%nat then target else p) (points s).
Proof.
  induction trail as [|p trail IH]; intros s Hdrag; cbn zeta.
  - repeat split. exact Hdrag.
  - cbn [map]. rewrite handleAll_cons. cbn [handle].
    unfold handleMouseMove. rewrite Hdrag.
    set (s1 := setPoints _ s).
    destruct (IH s1 Hdrag) as (H1 & H2 & H3 & H4).
    rewrite H1, H2, H3. repeat split.
    intros target. rewrite H4. subst s1. cbn [setPoints points].
    apply mapi_from_overwrite.
Qed.

(** X6. Dragging and dropping: after a press on point [i], any trail of
    moves, a last move to [target] and the release, the control points are
    the ones before the press with point [i] replaced by [target] clamped to
    the canvas (and unchanged if there is no point [i]); the positions passed
    on the way leave no trace, no drag is active any more, and [t] and the
    order are as before. *)
Theorem drag_and_drop
  (Math_sin : number -> number) (s : State) (i : nat)
  (trail : list Point) (target : Point) :
  let s' :=
    handleAll Math_sin
      (MouseDown i :: map (fun p => MouseMove (Some p)) trail
         ++ [MouseMove (Some target); MouseUp]) s in
  points s'
  = Array_map (fun p k => if (k =? i)%nat then clampToCanvas target else p)
      (points s) /\
  draggingIndex s' = None /\ t s' = t s /\ order s' = order s.
Proof.
  cbn zeta. rewrite handleAll_cons, handleAll_app.
  destruct (handleAll_moves Math_sin i trail (handle Math_sin (MouseDown i) s))
    as (H1 & H2 & H3 & H4); [reflexivity|].
  set (s1 := handleAll Math_sin _ (handle Math_sin (MouseDown i) s)) in *.
  cbn [handleAll fold_left handle]. unfold handleMouseMove. rewrite H1.
  cbn [handleMouseUp setDraggingIndex setPoints points draggingIndex t order].
  rewrite H4, H2, H3. repeat split.
Qed.

(** X7. With no drag active the control points are safe from the pointer:
    through any run of moves, releases, leaves and slider changes they stay
    the same array (so the sampled curve is not recomputed either), and no
    drag starts.  Only a press or an entry in the order field ends this. *)
Theorem idle_points_stay
  (Math_sin : number -> number) (events : list Event) (s : State) :
  draggingIndex s = None ->
  Forall (fun e => match e with
                   | MouseDown _ | OrderChange _ => False
                   | _ => True
                   end) events ->
  let s' := handleAll Math_sin events s in
  points s' = points s /\ pointsRef s' = pointsRef s /\
  draggingIndex s' = None /\ order s' = order s.
Proof.
  intros Hidle Hevents. revert s Hidle.
  induction Hevents as [|e events He _ IH]; intros s Hidle; cbn zeta.
  - repeat split. exact Hidle.
  - rewrite handleAll_cons.
    assert (Hstep : points (handle Math_sin e s) = points s /\
                    pointsRef (handle Math_sin e s) = pointsRef s /\
                    draggingIndex (handle Math_sin e s) = None /\
                    order (handle Math_sin e s) = order s).
    { destruct e as [newT|value|index|svgPoint| |]; try contradiction;
        cbn [handle]; unfold handleMouseMove; try rewrite Hidle;
        repeat split; exact Hidle. }
    destruct Hstep as (H1 & H2 & H3 & H4).
    destruct (IH (handle Math_sin e s) H3) as (K1 & K2 & K3 & K4).
    rewrite K1, K2, K3, K4. now repeat split.
Qed.

Lemma idle_points_stay_witness :
  points (handleAll sinSeries
            [MouseMove (Some (mkPoint 1 2)); SliderChange 0.5; MouseUp;
             MouseMove None; MouseLeave]
            (mounted sinSeries))
  = points (mounted sinSeries).
Proof.
  refine (proj1 (idle_points_stay sinSeries _ (mounted sinSeries) _ _)).
  - reflexivity.
  - repeat constructor.
Defined.

(** ** The clamp to the canvas *)

Section ClampTwice.

Import Binary64.

Variables lo hi : number.
Hypothesis lo_number : is_nan lo = false.
Hypothesis hi_number : is_nan hi = false.
Hypothesis lo_above : (neg_infinity <? lo) = true.
Hypothesis hi_below : (hi <? infinity) = true.
Hypothesis lo_sign : is_neg_zero lo = false.
Hypothesis hi_sign : is_pos_zero hi = false.
Hypothesis lo_hi : (lo <? hi) = true.

Lemma clamp_is_nan (v : number) : is_nan (clamp lo hi v) = is_nan v.
Proof.
  destruct (is_nan v) eqn:Hv.
  - now rewrite clamp_nan.
  - destruct (clamp_range lo hi) with (v := v) as [H _]; try assumption.
    apply (leb_not_nan _ _ H).
Qed.

Lemma clamp_idempotent (v : number) :
  clamp lo hi (clamp lo hi v) = clamp lo hi v.
Proof.
  destruct (is_nan v) eqn:Hv.
  - rewrite (clamp_nan lo hi v Hv). now apply clamp_nan.
  - rewrite (clamp_cases lo hi) with (v := v) by assumption.
    destruct (v <? hi) eqn:E1; [destruct (lo <? v) eqn:E2|].
    + rewrite (clamp_cases lo hi) by assumption. now rewrite E1, E2.
    + rewrite (clamp_cases lo hi) by assumption. rewrite lo_hi.
      now destruct (lo <? lo).
    + rewrite (clamp_cases lo hi) by assumption.
      destruct (hi <? hi) eqn:E; [|reflexivity].
      now rewrite (ltb_asym _ _ E) in E.
Qed.

End ClampTwice.

(** X8. The clamp to the canvas settles in one step: clamping a clamped
    position changes nothing, so a point dropped somewhere stays there when
    it is dragged to where it is.  It does not invent or remove a NaN: a
    coordinate of the result is NaN exactly when that coordinate of the
    pointer position is. *)
Theorem clampToCanvas_idempotent (svgPoint : Point) :
  clampToCanvas (clampToCanvas svgPoint) = clampToCanvas svgPoint /\
  is_nan (x (clampToCanvas svgPoint)) = is_nan (x svgPoint) /\
  is_nan (y (clampToCanvas svgPoint)) = is_nan (y svgPoint).
Proof.
  unfold clampToCanvas. cbn [x y].
  fold (clamp 0 800 (x svgPoint)) (clamp 0 400 (y svgPoint)).
  fold (clamp 0 800 (clamp 0 800 (x svgPoint)))
       (clamp 0 400 (clamp 0 400 (y svgPoint))).
  rewrite !clamp_idempotent, !clamp_is_nan by clamp_side.
  repeat split.
Qed.

(** ** What is on screen *)

(** An event installs a new array of control points, or keeps the array. *)
Lemma handle_pointsRef (Math_sin : number -> number) (e : Event) (s : State) :
  (pointsRef (handle Math_sin e s) = pointsRef s /\
   points (handle Math_sin e s) = points s) \/
  pointsRef (handle Math_sin e s) = S (pointsRef s).
Proof.
  destruct e as [newT|value|index|svgPoint| |]; cbn [handle];
    try (left; split; reflexivity).
  - destruct (Object_is (order s) (order (setOrder (parseInt value) s)));
      [left; split; reflexivity|].
    unfold orderEffect.
    destruct (0 <? List.length (orderLayout Math_sin (order (setOrder (parseInt value) s))))%nat;
      [right|left; split]; reflexivity.
  - unfold handleMouseMove.
    destruct (draggingIndex s), svgPoint;
      first [right; reflexivity|left; split; reflexivity].
Qed.

Lemma render_current (depth : nat) (s s' : State) (shown : Rendered) :
  current depth s shown ->
  (pointsRef s' = pointsRef s /\ points s' = points s) \/
  pointsRef s' = S (pointsRef s) ->
  current depth s' (render depth s' (Some shown)).
Proof.
  intros (Hd & Hv & Hr & Hpd & Hpv) Hstep.
  unfold current, render. cbn [option_map curveMemo pyramidMemo useMemo].
  assert (Hpyramid :
    forall m, m = useMemo samePointsAndT
                    (fun _ => intermediatePoints (t s') (points s'))
                    (pointsRef s', t s') (Some (pyramidMemo shown)) ->
    deps m = (pointsRef s', t s') /\
    value m = intermediatePoints (t s') (points s')).
  { intros m ->. cbn [useMemo].
    destruct (samePointsAndT (deps (pyramidMemo shown)) (pointsRef s', t s')) eqn:E;
      cbn [deps value]; [|split; reflexivity].
    rewrite Hpd in E. unfold samePointsAndT in E. cbn [fst snd] in E.
    apply andb_prop in E. destruct E as [E1 E2].
    apply Nat.eqb_eq in E1. apply FloatAxioms.Leibniz.eqb_spec in E2.
    destruct Hstep as [[Href Hpts]|Href]; [|lia].
    rewrite Hpd, Hpv, Href, Hpts, E2. split; reflexivity. }
  destruct (Hpyramid _ eq_refl) as [Hpd' Hpv']. cbn [useMemo] in Hpd', Hpv'.
  destruct (Nat.eqb_spec (deps (curveMemo shown)) (pointsRef s')) as [Hhit|Hmiss].
  - destruct Hstep as [[Href Hpts]|Href]; [|lia].
    rewrite Hd, Hv, Hr, Href, Hpts.
    rewrite Href, Hpts in Hpd', Hpv'.
    do 3 (split; [reflexivity|]). split; assumption.
  - destruct Hstep as [[Href _]|Href]; [congruence|].
    cbn [deps value runs]. rewrite Hr.
    do 2 (split; [reflexivity|]). split; [now rewrite Href|]. split; assumption.
Qed.

(** X9. Memoisation never shows a stale drawing.  In every session, after
    every render, the curve held by the [curvePoints] cell is the curve of
    the current control points and the pyramid held by the
    [intermediatePoints] cell is the pyramid of the current control points
    at the current [t]; and the curve has been sampled once for the first
    render and once more for each array of control points installed since,
    never for a change of [t] or of the order alone. *)
Theorem displayed_is_current
  (Math_sin : number -> number) (depth : nat) (s : State) (shown : Rendered) :
  displayed Math_sin depth s shown ->
  value (curveMemo shown) = curvePoints depth (points s) /\
  value (pyramidMemo shown) = intermediatePoints (t s) (points s) /\
  runs (curveMemo shown) = S (pointsRef s).
Proof.
  intros Hshown.
  assert (H : current depth s shown).
  { induction Hshown as [|s shown e _ IH].
    - apply (render_current depth initialState); [|right; reflexivity].
      repeat split.
    - apply (render_current depth s); [exact IH|apply handle_pointsRef]. }
  destruct H as (_ & Hv & Hr & _ & Hpv). now repeat split.
Qed.

Lemma displayed_is_current_witness :
  let s := handle sinSeries (SliderChange 0.5) (mounted sinSeries) in
  let shown :=
    render 3 s (Some (render 3 (mounted sinSeries)
                        (Some (render 3 initialState None)))) in
  value (pyramidMemo shown) = intermediatePoints 0.5 (points (mounted sinSeries)) /\
  runs (curveMemo shown) = 2%nat.
Proof.
  intros s shown.
  destruct (displayed_is_current sinSeries 3 s shown) as (_ & H2 & H3).
  - apply displayed_handle, displayed_mounted.
  - split; [exact H2|exact H3].
Defined.

(** ** The construction drawn *)

(** The pyramid of a list of two or more points is the list itself on top
    of the pyramid of its interpolated list. *)
Lemma intermediatePoints_step (t : number) (points : list Point) :
  intermediatePoints t points =
  if (1 <? List.length points)%nat
  then points :: intermediatePoints t (newPoints t points)
  else [points].
Proof.
  unfold intermediatePoints at 1. rewrite intermediateLoop_eq.
  destruct (1 <? List.length points)%nat; [|reflexivity].
  rewrite (intermediateLoop_levels _ _ _ _ eq_refl).
  unfold intermediatePoints.
  rewrite (intermediateLoop_levels _ _ _ _ eq_refl).
  rewrite <- app_assoc. reflexivity.
Qed.

Lemma groups_circles_length (levels : list (list Point)) :
  forall i,
    List.length (List.concat (map circles (mapi_from i group levels)))
    = list_sum (map (@List.length Point) levels).
Proof.
  induction levels as [|l levels IH]; intros i; cbn [mapi_from map List.concat list_sum];
    [reflexivity|].
  rewrite length_app, IH. cbn [group circles]. unfold Array_map.
  now rewrite mapi_from_length.
Qed.

Lemma groups_paths_length (levels : list (list Point)) :
  forall i,
    List.length (filter (fun g => match path g with Some _ => true | None => false end)
                   (mapi_from i group levels))
    = List.length (filter (fun l => (1 <? List.length l)%nat) levels).
Proof.
  induction levels as [|l levels IH]; intros i; cbn [mapi_from filter];
    [reflexivity|].
  cbn [group path]. destruct (1 <? List.length l)%nat; cbn [List.length];
    now rewrite IH.
Qed.

Lemma intermediatePoints_sizes (n : nat) :
  forall (t : number) (points : list Point),
    List.length points = n ->
    (2 * list_sum (map (@List.length Point) (intermediatePoints t points))
     = n * (n + 1))%nat /\
    List.length (filter (fun l => (1 <? List.length l)%nat)
                   (intermediatePoints t points)) = (n - 1)%nat /\
    List.length (intermediatePoints t points) = Nat.max 1 n.
Proof.
  induction n as [|n IH]; intros t0 points Hlen; rewrite intermediatePoints_step, Hlen.
  - cbn. rewrite Hlen. repeat split.
  - destruct n as [|n].
    + cbn. rewrite Hlen. repeat split.
    + replace (1 <? S (S n))%nat with true by reflexivity.
      destruct (IH t0 (newPoints t0 points)) as (H1 & H2 & H3);
        [rewrite newPoints_length, Hlen; reflexivity|].
      cbn [map list_sum fold_right filter List.length]. rewrite Hlen.
      replace (1 <? S (S n))%nat with true by reflexivity.
      cbn [List.length]. fold (list_sum (map (@List.length Point)
        (intermediatePoints t0 (newPoints t0 points)))).
      rewrite H2, H3. repeat split; lia.
Qed.

(** X10. The size of the construction.  For [n] control points the drawing
    has [max 1 n] groups, [n (n + 1) / 2] circles in all ([n] on the first
    level, one fewer on each next one), and [n - 1] polylines: every level
    but the last, which is a single point, has its path. *)
Theorem drawing_size (t0 : number) (controlPoints : list Point) :
  let n := List.length controlPoints in
  let drawn := groups (intermediatePoints t0 controlPoints) in
  List.length drawn = Nat.max 1 n /\
  (2 * List.length (List.concat (map circles drawn)) = n * (n + 1))%nat /\
  List.length (filter (fun g => match path g with Some _ => true | None => false end) drawn)
  = (n - 1)%nat.
Proof.
  cbn zeta. unfold groups, Array_map.
  rewrite mapi_from_length, groups_circles_length, groups_paths_length.
  destruct (intermediatePoints_sizes (List.length controlPoints) t0 controlPoints
              eq_refl) as (H1 & H2 & H3).
  repeat split; assumption.
Qed.

(** X11. Only control points can be dragged, and a press drags the point
    under the pointer.  A circle of the first level sits on the control
    point of its index, is the large red one, and its [onMouseDown] starts
    the drag of that index, which is within range; a circle of any other
    level is small and gray and its [onMouseDown] changes nothing. *)
Theorem press_drags_the_control_point
  (t0 : number) (controlPoints : list Point)
  (setIndex pointIndex : nat) (g : Group) (c : Circle) :
  nth_error (groups (intermediatePoints t0 controlPoints)) setIndex = Some g ->
  nth_error (circles g) pointIndex = Some c ->
  (setIndex = 0%nat ->
   nth_error controlPoints pointIndex = Some (mkPoint (cx c) (cy c)) /\
   (pointIndex < List.length controlPoints)%nat /\
   (forall s, onMouseDown c s = handleMouseDown pointIndex s) /\
   r c = 6 /\ fill c = "red"%string /\ cursor c = "move"%string) /\
  (setIndex <> 0%nat ->
   (forall s, onMouseDown c s = s) /\
   r c = 4 /\ fill c = "gray"%string /\ cursor c = "default"%string).
Proof.
  unfold groups, Array_map. rewrite mapi_from_nth. cbn [Nat.add].
  destruct (nth_error (intermediatePoints t0 controlPoints) setIndex)
    as [pointSet|] eqn:Hlevel; [|discriminate].
  cbn [option_map]. intros [= <-]. cbn [group circles]. unfold Array_map.
  rewrite mapi_from_nth. cbn [Nat.add].
  destruct (nth_error pointSet pointIndex) as [point|] eqn:Hpoint; [|discriminate].
  cbn [option_map]. intros [= <-]. split.
  - intros ->. rewrite intermediatePoints_step in Hlevel.
    assert (pointSet = controlPoints) as ->
      by (destruct (1 <? List.length controlPoints)%nat; cbn in Hlevel; congruence).
    cbn [circle cx cy r fill cursor onMouseDown Nat.eqb].
    split; [rewrite Hpoint; now destruct point|].
    split; [apply nth_error_Some; congruence|]. repeat split.
  - intros Hother. apply Nat.eqb_neq in Hother.
    cbn [circle cx cy r fill cursor onMouseDown]. rewrite Hother. repeat split.
Qed.

Lemma press_drags_the_control_point_witness :
  let controlPoints := [mkPoint 0 0; mkPoint 1 2; mkPoint 4 4] in
  let c := circle 0 (mkPoint 1 2) 1 in
  nth_error controlPoints 1 = Some (mkPoint (cx c) (cy c)) /\
  onMouseDown c initialState = handleMouseDown 1 initialState /\
  r c = 6.
Proof.
  intros controlPoints c.
  destruct (press_drags_the_control_point 0.5 controlPoints 0 1
              (group controlPoints 0) c eq_refl eq_refl) as [H _].
  destruct (H eq_refl) as (H1 & _ & H2 & H3 & _).
  split; [exact H1|]. split; [apply H2|exact H3].
Defined.

(** ** The layout across the canvas *)

Lemma ascending_nth (l : list number) :
  ascending l = true ->
  forall i a b,
    nth_error l i = Some a -> nth_error l (S i) = Some b -> (a <? b) = true.
Proof.
  induction l as [|a0 [|b0 rest] IH]; intros Hasc i a b Ha Hb.
  - destruct i; discriminate.
  - destruct i as [|[|i]]; discriminate.
  - cbn [ascending] in Hasc. apply andb_prop in Hasc. destruct Hasc as [H0 Hrest].
    destruct i as [|i].
    + cbn in Ha, Hb. congruence.
    + apply (IH Hrest i); assumption.
Qed.

Lemma layout_abscissae_computed :
  forallb (fun k =>
             let xs := map (fun i => 50 + (of_nat i * 700) / Z2number (Z.of_nat k))
                           (seq 0 (k + 1)) in
             PrimFloat.Leibniz.eqb (hd nan xs) 50
             && PrimFloat.Leibniz.eqb (last xs nan) 750
             && ascending xs
             && forallb (fun v => (50 <=? v) && (v <=? 750)) xs)
          (seq 1 100) = true.
Proof. vm_compute. reflexivity. Qed.

(** X12. The layout spreads the control points over the canvas from left
    to right.  For every integer order, whatever the sine: the first control
    point is at x = 50 exactly, the last at x = 750 exactly, and x grows
    strictly from each point to the next, so every x lies in [50, 750],
    inside the canvas. *)
Theorem orderLayout_abscissae (Math_sin : number -> number) (z : Z) :
  let xs := map x (orderLayout Math_sin (Z2number z)) in
  hd_error xs = Some 50 /\ last xs nan = 750 /\
  (forall i a b,
     nth_error xs i = Some a -> nth_error xs (S i) = Some b -> (a <? b) = true) /\
  (forall v, In v xs -> (50 <=? v) = true /\ (v <=? 750) = true).
Proof.
  cbn zeta. unfold orderLayout, Array_from. fold (safeOrder (Z2number z)).
  destruct (safeOrder_integer z) as [-> ->].
  rewrite map_map. cbn [layoutPoint x].
  pose proof layout_abscissae_computed as H.
  rewrite forallb_forall in H.
  specialize (H (Z.to_nat (Z.max 1 (Z.min 100 z)))).
  rewrite in_seq, Z2Nat.id in H by lia. specialize (H ltac:(lia)).
  cbn zeta in H.
  destruct (andb_prop _ _ H) as [H123 H4]. destruct (andb_prop _ _ H123) as [H12 H3].
  destruct (andb_prop _ _ H12) as [H1 H2].
  apply FloatAxioms.Leibniz.eqb_spec in H1, H2.
  rewrite forallb_forall in H4.
  split; [|split; [exact H2|split; [now apply ascending_nth|]]].
  - rewrite Nat.add_1_r in *. cbn [seq map hd hd_error] in *. now rewrite H1.
  - intros v Hv. apply andb_prop. now apply H4.
Qed.

(** ** Reversing the control points *)

Lemma SFadd_comm (a b : spec_float) :
  SFadd prec emax a b = SFadd prec emax b a.
Proof.
  destruct a as [sa|sa| |sa ma ea], b as [sb|sb| |sb mb eb]; cbn [SFadd];
    try reflexivity.
  - now destruct sa, sb.
  - now destruct sa, sb.
  - now rewrite Z.min_comm, Z.add_comm.
Qed.

Lemma number_add_comm (a b : number) : a + b = b + a.
Proof.
  apply Prim2SF_inj. rewrite !FloatAxioms.add_spec. apply SFadd_comm.
Qed.

Lemma newPoints_snoc (t : number) (p q : Point) (l : list Point) :
  newPoints t (l ++ [p; q])
  = newPoints t (l ++ [p])
      ++ [{| x := (1 - t) * x p + t * x q; y := (1 - t) * y p + t * y q |}].
Proof.
  induction l as [|a [|b l] IH]; [reflexivity|reflexivity|].
  change (newPoints t ((a :: b :: l) ++ [p; q]))
    with ({| x := (1 - t) * x a + t * x b; y := (1 - t) * y a + t * y b |}
            :: newPoints t ((b :: l) ++ [p; q])).
  rewrite IH. reflexivity.
Qed.

Lemma newPoints_rev (t : number) (l : list Point) :
  1 - (1 - t) = t ->
  newPoints (1 - t) (rev l) = rev (newPoints t l).
Proof.
  intros Ht. induction l as [|p [|q l] IH]; [reflexivity|reflexivity|].
  change (rev (p :: q :: l)) with (rev (q :: l) ++ [p]).
  change (rev (q :: l)) with (rev l ++ [q]) at 1. rewrite <- app_assoc.
  cbn [app]. rewrite newPoints_snoc.
  change (rev l ++ [q]) with (rev (q :: l)). rewrite IH.
  cbn [newPoints rev]. f_equal. f_equal. rewrite Ht.
  f_equal; apply number_add_comm.
Qed.

Lemma level_rev (t : number) (k : nat) :
  1 - (1 - t) = t ->
  forall l : list Point, level k (1 - t) (rev l) = rev (level k t l).
Proof.
  intros Ht. induction k as [|k IH]; intros l; [reflexivity|].
  rewrite !level_shift, newPoints_rev by exact Ht. apply IH.
Qed.

(** X13. The curve does not depend on the direction in which the control
    points are listed: for a parameter [t] that the subtraction from 1 takes
    back to itself ([1 - (1 - t) = t], as for 0, 1/4, 1/2, 3/4 and 1),
    evaluating the reversed list at [1 - t] returns the very point the list
    gives at [t], and the pyramid of the reversed list is the pyramid with
    every level reversed. *)
Theorem calculateBezierPoint_reversed
  (depth : nat) (t0 : number) (controlPoints : list Point) :
  1 - (1 - t0) = t0 ->
  calculateBezierPoint depth (1 - t0) (rev controlPoints)
  = calculateBezierPoint depth t0 controlPoints /\
  intermediatePoints (1 - t0) (rev controlPoints)
  = map (@rev Point) (intermediatePoints t0 controlPoints).
Proof.
  intros Ht. split.
  - revert controlPoints.
    induction depth as [|depth IH]; intros controlPoints;
      rewrite !(calculateBezierPoint_eq _ _ (rev controlPoints)),
              !(calculateBezierPoint_eq _ _ controlPoints), length_rev;
      (destruct (Nat.eqb_spec (List.length controlPoints) 1) as [Hone|_];
       [destruct controlPoints as [|p [|q rest]]; try discriminate; reflexivity|]).
    + reflexivity.
    + rewrite newPoints_rev by exact Ht.
      rewrite <- (IH (newPoints t0 controlPoints)).
      reflexivity.
  - rewrite !intermediatePoints_levels, length_rev, map_map.
    apply map_ext. intros k. now apply level_rev.
Qed.

Lemma calculateBezierPoint_reversed_witness :
  calculateBezierPoint 2 (1 - 0.25) (rev [mkPoint 0 0; mkPoint 1 2; mkPoint 4 4])
  = calculateBezierPoint 2 0.25 [mkPoint 0 0; mkPoint 1 2; mkPoint 4 4].
Proof.
  refine (proj1 (calculateBezierPoint_reversed 2 0.25
                   [mkPoint 0 0; mkPoint 1 2; mkPoint 4 4] _)).
  reflexivity.
Defined.

(** ** The apex of the pyramid *)

(** X14. The apex of the construction lies on the drawn curve: with the
    slider at [i / 99], the single point of the last level of the pyramid is
    the [i]-th sample of the curve. *)
Theorem apex_is_on_the_curve
  (depth : nat) (controlPoints : list Point) (i : nat) :
  controlPoints <> [] ->
  (List.length controlPoints - 1 <= depth)%nat ->
  (i < 100)%nat ->
  exists samples p,
    curvePoints depth controlPoints = Some samples /\
    nth_error samples i = Some p /\
    last (intermediatePoints (of_nat i / 99) controlPoints) [] = [p].
Proof.
  intros Hne Hdepth Hi.
  destruct controlPoints as [|first rest]; [congruence|].
  simpl in Hdepth.
  destruct (curvePoints_nth (List.length rest) depth (first :: rest))
    as (samples & Hcurve & _ & Hnth); [reflexivity|lia|].
  destruct (calculateBezierPoint_level (List.length rest) depth
              (of_nat i / 99) (first :: rest))
    as (p & Hlevel & Hvalue & _); [reflexivity|lia|].
  exists samples, p. split; [exact Hcurve|].
  split; [rewrite (Hnth i Hi); exact Hvalue|].
  rewrite intermediatePoints_levels. cbn [List.length Nat.pred].
  rewrite last_map_seq. exact Hlevel.
Qed.

Lemma apex_is_on_the_curve_witness :
  exists samples p,
    curvePoints 2 [mkPoint 0 0; mkPoint 1 2; mkPoint 4 4] = Some samples /\
    nth_error samples 33 = Some p /\
    last (intermediatePoints (of_nat 33 / 99) [mkPoint 0 0; mkPoint 1 2; mkPoint 4 4]) []
    = [p].
Proof.
  apply (apex_is_on_the_curve 2 [mkPoint 0 0; mkPoint 1 2; mkPoint 4 4] 33).
  - discriminate.
  - simpl. lia.
  - lia.
Defined.

(** ** Numerals in the order field *)

Lemma digit_cases (d : nat) :
  (d < 10)%nat ->
  d = 0%nat \/ d = 1%nat \/ d = 2%nat \/ d = 3%nat \/ d = 4%nat \/
  d = 5%nat \/ d = 6%nat \/ d = 7%nat \/ d = 8%nat \/ d = 9%nat.
Proof. lia. Qed.

Ltac each_digit_char Hd :=
  apply digit_cases in Hd; repeat destruct Hd as [Hd|Hd]; subst.

Lemma digitChar_value (d : nat) : (d < 10)%nat -> digitValue (digitChar d) = Some (Z.of_nat d).
Proof. intros Hd. each_digit_char Hd; reflexivity. Qed.

Lemma parseDigits_numeral (rest : string) (digits : list nat) :
  Forall (fun d => d < 10)%nat digits ->
  forall acc : Z,
    parseDigits 10 (numeral digits ++ rest) (Some acc)
    = parseDigits 10 rest (Some (fold_left (fun a d => a * 10 + Z.of_nat d)%Z digits acc)).
Proof.
  induction 1 as [|d digits Hd _ IH]; intros acc; [reflexivity|].
  cbn [numeral map string_of_list_ascii append parseDigits fold_left].
  rewrite (digitChar_value d Hd).
  replace (Z.of_nat d <? 10)%Z with true by (symmetry; apply Z.ltb_lt; lia).
  apply IH.
Qed.

Lemma parseDigits_end (rest : string) (acc : option Z) :
  endsNumeral rest = true -> parseDigits 10 rest acc = acc.
Proof.
  destruct rest as [|c rest]; [reflexivity|]. cbn [endsNumeral parseDigits].
  destruct (digitValue c) as [d|]; [|reflexivity].
  intros H. apply andb_prop in H. destruct H as [H _].
  apply andb_prop in H. destruct H as [H _]. apply Z.leb_le in H.
  replace (d <? 10)%Z with false by (symmetry; apply Z.ltb_ge; lia). reflexivity.
Qed.


(** [parseInt] on a string that starts with neither white space nor a sign
    nor a hexadecimal prefix reads decimal digits from its first character. *)
Lemma parseInt_decimal (c : ascii) (tail : string) :
  isWhiteSpace c = false ->
  c <> "-"%char -> c <> "+"%char ->
  (c = "0"%char ->
   match tail with
   | String c2 _ => c2 <> "x"%char /\ c2 <> "X"%char
   | EmptyString => True
   end) ->
  parseInt (String c tail)
  = match parseDigits 10 (String c tail) None with
    | Some mathInt => if (mathInt =? 0)%Z then PrimFloat.zero else Z2number mathInt
    | None => nan
    end.
Proof.
  intros Hspace Hminus Hplus Hhex.
  unfold parseInt. cbn [trimStart]. rewrite Hspace.
  destruct c as [[] [] [] [] [] [] [] []];
    try reflexivity; try (exfalso; apply Hminus; reflexivity);
    try (exfalso; apply Hplus; reflexivity).
  specialize (Hhex eq_refl).
  destruct tail as [|c2 tail]; [reflexivity|].
  destruct Hhex as [Hx HX].
  destruct c2 as [[] [] [] [] [] [] [] []];
    try reflexivity; try (exfalso; apply Hx; reflexivity);
    try (exfalso; apply HX; reflexivity).
Qed.

Lemma endsNumeral_not_hex (c : ascii) (rest : string) :
  endsNumeral (String c rest) = true -> c <> "x"%char /\ c <> "X"%char.
Proof.
  cbn [endsNumeral]. intros H. split; intros ->; discriminate H. 
Qed.

Lemma parseInt_numeral (digits : list nat) (rest : string) :
  digits <> [] -> Forall (fun d => d < 10)%nat digits -> endsNumeral rest = true ->
  parseInt (numeral digits ++ rest) = Z2number (numeralValue digits).
Proof.
  intros Hne Hdigits Hrest.
  destruct digits as [|d digits]; [congruence|].
  inversion_clear Hdigits as [|? ? Hd Hmore].
  assert (Hparsed :
    parseDigits 10 (numeral (d :: digits) ++ rest) None
    = Some (numeralValue (d :: digits))).
  { cbn [numeral map string_of_list_ascii append parseDigits].
    rewrite (digitChar_value d Hd).
    replace (Z.of_nat d <? 10)%Z with true by (symmetry; apply Z.ltb_lt; lia).
    fold (numeral digits). rewrite (parseDigits_numeral rest digits Hmore).
    now rewrite parseDigits_end. }
  cbn [numeral map string_of_list_ascii append] in *. fold (numeral digits) in *.
  rewrite parseInt_decimal, Hparsed.
  - destruct (Z.eqb_spec (numeralValue (d :: digits)) 0) as [->|]; reflexivity.
  - clear -Hd. each_digit_char Hd; reflexivity.
  - clear -Hd. each_digit_char Hd; discriminate.
  - clear -Hd. each_digit_char Hd; discriminate.
  - intros _. destruct digits as [|d2 digits].
    + cbn [numeral map string_of_list_ascii append].
      destruct rest as [|c rest]; [exact I|].
      now apply (endsNumeral_not_hex c rest).
    + inversion_clear Hmore as [|? ? Hd2 _].
      cbn [numeral map string_of_list_ascii append].
      clear -Hd2. each_digit_char Hd2; split; discriminate.
Qed.

(** X16. The order field reads the leading decimal digits of an entry and
    nothing after them.  An entry that writes out the digits of [n] and then
    stops, or goes on with a character that is not a digit (nor the [x] of a
    hexadecimal prefix), sets the order to [n]: 2.7 is read as 2 and 1e2 as
    1.  In every state the component reaches, the entry leaves
    [min (max n 1) 100 + 1] control points. *)
Theorem orderChange_reads_leading_digits
  (Math_sin : number -> number) (digits : list nat) (rest : string) (s : State) :
  reachable Math_sin s ->
  digits <> [] -> Forall (fun d => d < 10)%nat digits -> endsNumeral rest = true ->
  let n := numeralValue digits in
  let s' := handle Math_sin (OrderChange (numeral digits ++ rest)) s in
  parseInt (numeral digits ++ rest) = Z2number n /\
  order s' = Z2number n /\
  List.length (points s') = (Z.to_nat (Z.max 1 (Z.min 100 n)) + 1)%nat.
Proof.
  intros Hreach Hne Hdigits Hrest n s'.
  pose proof (parseInt_numeral digits rest Hne Hdigits Hrest) as Hparse.
  fold n in Hparse.
  assert (Horder : order s' = Z2number n).
  { subst s'. cbn [handle order setOrder]. rewrite Hparse.
    destruct (Object_is (order s) (Z2number n)); [reflexivity|].
    now rewrite (proj1 (proj2 (orderEffect_frame Math_sin _))). }
  split; [exact Hparse|]. split; [exact Horder|].
  rewrite (reachable_points_follow_order Math_sin s')
    by (try rewrite Horder; first [apply reachable_handle, Hreach|apply Z2number_number]).
  rewrite Horder. destruct (safeOrder_integer n) as [-> ->]. reflexivity.
Qed.

Lemma orderChange_reads_leading_digits_witness :
  let s' := handle sinSeries (OrderChange "1e2") (mounted sinSeries) in
  parseInt "1e2" = 1 /\ order s' = 1 /\ List.length (points s') = 2%nat.
Proof.
  apply (orderChange_reads_leading_digits sinSeries [1%nat] "e2" (mounted sinSeries)).
  - apply reachable_mounted.
  - discriminate.
  - repeat constructor.
  - reflexivity.
Defined.
